(** * photon-tools: change-point likelihood and maximum-entropy mixture fit

    A shallow embedding of [change_point.py] and [photon_tools/fcs_mem.py].

    Numbers.  numpy's [float64] values are modelled by [xreal]: a real
    number, one of the two infinities, or NaN.  The exceptional cases follow
    numpy (IEEE 754 with the default error state, where a division by zero
    or an invalid operation only warns): [x/0] is an infinity for [x <> 0],
    [0/0], [inf - inf] and [0 * inf] are NaN, [log 0 = -inf], the logarithm
    of a negative number is NaN, NaN is absorbing and every ordered
    comparison with NaN is false.  Rounding, overflow and the sign of zero
    are abstracted away: a finite result is the exact real one and zero is
    [+0.0].  Decimal literals of the source denote the corresponding
    rationals.  A theorem on [xreal] about the value of a finite result
    is about the exact value of the expression that the source
    evaluates.  Where a property of the numbers that are stored depends
    on rounding, the operations of the source are run in module
    [Binary64] on IEEE 754 binary64 numbers, the primitive floats of
    Rocq.

    Errors.  A Python exception is a value of [exn]; a call yields an
    [outcome].

    Objects.  numpy arrays passed to and allocated by [mem] live in a
    [heap] and are referred to by location, so that aliasing and in-place
    updates ([p[i] = x]) are visible.  The solver [shrager] that [mem]
    calls is imported from a module outside of the two source files and is
    a parameter of the model.

    Loops.  The [while True:] loop of [mem] is run with a bound on the
    number of turns; what is proved about it holds for every bound. *)

From Stdlib Require Import Reals Lra Lia ZArith String.
From Stdlib Require QArith Floats.
From stdpp Require Import base list.

Open Scope R_scope.

(** ** Python outcomes *)

Inductive exn : Type :=
| RuntimeError (msg : string)
| NameError (name : string)
| TypeError
| IndexError
| ValueError
| AssertionError
| ZeroDivisionError
| SystemError.

Inductive outcome (A : Type) : Type :=
| Return (a : A)
| Raise (e : exn).
Arguments Return {A} a.
Arguments Raise {A} e.

Definition obind {A B} (o : outcome A) (k : A -> outcome B) : outcome B :=
  match o with
  | Return a => k a
  | Raise e => Raise e
  end.

(** ** float64 values *)

Inductive xreal : Type :=
| Fin (r : R)
| PInf
| NInf
| NaN.

(** The infinity whose sign is the sign of [r]; NaN for [r = 0]. *)
Definition signed_inf (r : R) : xreal :=
  if Rlt_dec 0 r then PInf else if Rlt_dec r 0 then NInf else NaN.

Definition xneg (x : xreal) : xreal :=
  match x with
  | Fin r => Fin (- r)
  | PInf => NInf
  | NInf => PInf
  | NaN => NaN
  end.

Definition xadd (x y : xreal) : xreal :=
  match x, y with
  | NaN, _ | _, NaN => NaN
  | Fin a, Fin b => Fin (a + b)
  | PInf, NInf | NInf, PInf => NaN
  | PInf, _ | _, PInf => PInf
  | NInf, _ | _, NInf => NInf
  end.

Definition xsub (x y : xreal) : xreal := xadd x (xneg y).

Definition xmul (x y : xreal) : xreal :=
  match x, y with
  | NaN, _ | _, NaN => NaN
  | Fin a, Fin b => Fin (a * b)
  | Fin a, PInf | PInf, Fin a => signed_inf a
  | Fin a, NInf | NInf, Fin a => signed_inf (- a)
  | PInf, PInf | NInf, NInf => PInf
  | PInf, NInf | NInf, PInf => NInf
  end.

Definition xdiv (x y : xreal) : xreal :=
  match x, y with
  | NaN, _ | _, NaN => NaN
  | Fin a, Fin b => if Req_dec_T b 0 then signed_inf a else Fin (a / b)
  | Fin _, (PInf | NInf) => Fin 0
  | PInf, Fin b => if Rlt_dec b 0 then NInf else PInf
  | NInf, Fin b => if Rlt_dec b 0 then PInf else NInf
  | (PInf | NInf), (PInf | NInf) => NaN
  end.

(** [numpy.log] *)
Definition log (x : xreal) : xreal :=
  match x with
  | Fin a => if Rlt_dec 0 a then Fin (ln a)
             else if Rlt_dec a 0 then NaN else NInf
  | PInf => PInf
  | NInf | NaN => NaN
  end.

(** Ordered comparisons: false as soon as one side is NaN. *)
Definition xlt (x y : xreal) : bool :=
  match x, y with
  | NaN, _ | _, NaN => false
  | Fin a, Fin b => if Rlt_dec a b then true else false
  | NInf, (Fin _ | PInf) => true
  | Fin _, PInf => true
  | _, _ => false
  end.

Definition xle (x y : xreal) : bool :=
  match x, y with
  | NaN, _ | _, NaN => false
  | Fin a, Fin b => if Rle_dec a b then true else false
  | NInf, _ => true
  | _, PInf => true
  | _, _ => false
  end.

(** Python integers enter float arithmetic exactly. *)
Definition of_nat (n : nat) : xreal := Fin (INR n).
Definition of_Z (z : Z) : xreal := Fin (IZR z).

Declare Scope xreal_scope.
Delimit Scope xreal_scope with X.
Bind Scope xreal_scope with xreal.
Infix "+" := xadd : xreal_scope.
Infix "-" := xsub : xreal_scope.
Infix "*" := xmul : xreal_scope.
Infix "/" := xdiv : xreal_scope.
Notation "- x" := (xneg x) : xreal_scope.

(** ** numpy arrays of rank one *)

(** Element-wise binary operation with numpy's broadcasting rule for two
    one-dimensional arrays: equal lengths, or one of them of length one;
    anything else is a [ValueError]. *)
Definition broadcast1 (op : xreal -> xreal -> xreal) (a b : list xreal)
  : outcome (list xreal) :=
  if decide (length a = length b) then Return (zip_with op a b)
  else match a, b with
       | [x], _ => Return (op x <$> b)
       | _, [y] => Return ((fun x => op x y) <$> a)
       | _, _ => Raise ValueError
       end.

(** [np.sum] of a one-dimensional array. *)
Definition np_sum (a : list xreal) : xreal := foldr xadd (Fin 0) a.

(** Sequencing over a Python [for] loop whose body may raise. *)
Fixpoint foldM {A B} (body : A -> B -> outcome A) (acc : A) (l : list B)
  : outcome A :=
  match l with
  | [] => Return acc
  | b :: l' => obind (body acc b) (fun acc' => foldM body acc' l')
  end.

(** ** change_point.py *)

Module ChangePoint.

(** [tau95(n)] *)
Definition tau95 (n : xreal) : outcome xreal :=
  if xlt (Fin 1) n && xle n (Fin 100) then
    Return ((Fin 3.0123 + Fin 0.4835 * log n - Fin 0.00957 * log (n * n)
             - Fin 0.001488 * log (n * n * n)) / n)%X
  else if xlt (Fin 100) n then
    Return ((Fin 3.0806 + Fin 0.4894 * log n - Fin 0.02086 * log (n * n)) / n)%X
  else Raise (RuntimeError "Implement me").


(** [compute_likelihood(times)] for a float array [times].  [times[-1]]
    raises [IndexError] on an empty array; [k] is
    [np.indices(times.shape)[0]], the integer array [0 .. N-1]; integers
    are converted when they meet a float. *)
Definition compute_likelihood (times : list xreal) : outcome (list xreal) :=
  let N := length times in
  match last times with
  | None => Raise IndexError
  | Some T =>
      let k := seq 0 N in
      let Vk := (fun t => t / T)%X <$> times in
      let two_k := (fun j => 2 * j)%nat <$> k in
      let N_k := (fun j => N - j)%nat <$> k in
      let two_N_k := (fun j => 2 * j)%nat <$> N_k in
      let one_Vk := (fun v => Fin 1 - v)%X <$> Vk in
      let left := zip_with (fun a b => of_nat a * b)%X two_k
                    (log <$> zip_with (fun j v => of_nat j / v)%X k Vk) in
      let right := zip_with (fun a b => of_nat a * b)%X two_N_k
                     (log <$> zip_with (fun j v => of_nat j / v)%X N_k one_Vk) in
      Return ((fun s => s - of_nat (2 * N) * log (of_nat N))%X
                <$> zip_with xadd left right)
  end.

(** The profile as the specification writes it, entry by entry:
    [L[k] = 2k log(k/Vk[k]) + 2(N-k) log((N-k)/(1-Vk[k])) - 2N log N]
    with [Vk[k] = times[k]/T]. *)
Definition Vk_spec (T : xreal) (t : xreal) : xreal := (t / T)%X.

Definition L_spec (N k : nat) (Vk : xreal) : xreal :=
  (of_nat (2 * k) * log (of_nat k / Vk)
   + of_nat (2 * (N - k)) * log (of_nat (N - k) / (Fin 1 - Vk))
   - of_nat (2 * N) * log (of_nat N))%X.


(** *** Dynamic values and the module namespace

    [find_change_points] refers to names that are looked up when the call
    is executed, so its embedding goes through the namespace of the
    module. *)

Inductive pyval : Type :=
| PyNone
| PyInt (z : Z)
| PyFloat (x : xreal)
| PyArray (a : list xreal)
| PyBoolArray (b : list bool).

Inductive pyobj : Type :=
| ObjVal (v : pyval)
| ObjFun (f : list pyval -> outcome pyval)
| ObjOther.

Definition py_tau95 (args : list pyval) : outcome pyval :=
  match args with
  | [PyInt z] => obind (tau95 (of_Z z)) (fun x => Return (PyFloat x))
  | [PyFloat x] => obind (tau95 x) (fun x => Return (PyFloat x))
  | _ => Raise TypeError
  end.

Definition py_compute_likelihood (args : list pyval) : outcome pyval :=
  match args with
  | [PyArray a] => obind (compute_likelihood a) (fun L => Return (PyArray L))
  | _ => Raise TypeError
  end.

Definition py_log (args : list pyval) : outcome pyval :=
  match args with
  | [PyInt z] => Return (PyFloat (log (of_Z z)))
  | [PyFloat x] => Return (PyFloat (log x))
  | [PyArray a] => Return (PyArray (log <$> a))
  | _ => Raise TypeError
  end.

(** The names bound at module level of [change_point.py]: the two imports
    and the six [def]s. *)
Definition module_globals : list (string * pyobj) :=
  [ ("np", ObjOther);
    ("log", ObjFun py_log);
    ("tau95", ObjFun py_tau95);
    ("compute_likelihood", ObjFun py_compute_likelihood);
    ("find_tau", ObjOther);
    ("find_change_points", ObjOther);
    ("test_discrete_data", ObjOther);
    ("test_gaussian_data", ObjOther) ]%string.

(** The builtins the module refers to. *)
Definition builtins : list string := ["len"; "range"; "open"]%string.

Fixpoint assoc (name : string) (ns : list (string * pyobj)) : option pyobj :=
  match ns with
  | [] => None
  | (n, o) :: ns' => if String.eqb name n then Some o else assoc name ns'
  end.

(** Reading a name that is not local: module globals, then builtins, then
    [NameError]. *)
Definition load_global (name : string) : outcome pyobj :=
  match assoc name module_globals with
  | Some o => Return o
  | None => if existsb (String.eqb name) builtins then Return ObjOther
            else Raise (NameError name)
  end.

Definition call (f : pyobj) (args : list pyval) : outcome pyval :=
  match f with
  | ObjFun g => g args
  | _ => Raise TypeError
  end.

Definition as_value (o : pyobj) : outcome pyval :=
  match o with
  | ObjVal v => Return v
  | _ => Raise TypeError
  end.

(** [a[k]] for a one-dimensional array, with Python's negative indices. *)
Definition py_getitem (a : list xreal) (k : pyval) : outcome pyval :=
  match k with
  | PyInt z =>
      let n := Z.of_nat (length a) in
      let i := if (z <? 0)%Z then (z + n)%Z else z in
      if ((0 <=? i) && (i <? n))%Z
      then match a !! Z.to_nat i with
           | Some x => Return (PyFloat x)
           | None => Raise IndexError
           end
      else Raise IndexError
  | _ => Raise IndexError
  end.

Definition as_array (v : pyval) : outcome (list xreal) :=
  match v with
  | PyInt z => Return [of_Z z]
  | PyFloat x => Return [x]
  | PyArray a => Return a
  | _ => Raise TypeError
  end.

Definition is_scalar (v : pyval) : bool :=
  match v with PyInt _ | PyFloat _ => true | _ => false end.

(** [a - b] *)
Definition py_sub (a b : pyval) : outcome pyval :=
  match a, b with
  | PyInt x, PyInt y => Return (PyInt (x - y))
  | _, _ =>
      obind (as_array a) (fun u =>
      obind (as_array b) (fun v =>
      obind (broadcast1 xsub u v) (fun w =>
        if is_scalar a && is_scalar b
        then Return (PyFloat (default NaN (head w)))
        else Return (PyArray w))))
  end.

(** [a <= b] for an array [a] and a scalar [b] *)
Definition py_le (a b : pyval) : outcome pyval :=
  obind (as_array a) (fun u =>
  obind (as_array b) (fun v =>
  match v with
  | [y] => Return (PyBoolArray ((fun x => xle x y) <$> u))
  | _ => Raise ValueError
  end)).

Definition chunk_sz : nat := 1000.

(** [range(0, stop, step)] *)
Definition range_step (stop step : nat) : list nat :=
  (fun j => j * step)%nat <$> seq 0 ((stop + step - 1) / step).

(** The body of the [for] loop of [find_change_points], for the chunk that
    starts at [i]; the loop carries the list [chgpts]. *)
Definition chunk_body (times : list xreal) (chgpts : list pyval) (i : nat)
  : outcome (list pyval) :=
  let t := take chunk_sz (drop i times) in
  obind (compute_likelihood t) (fun L =>
  obind (load_global "argmax") (fun f =>
  obind (call f [PyArray L]) (fun k_max =>
  let chgpts := chgpts ++ [k_max] in
  obind (py_getitem L k_max) (fun Z =>
  obind (load_global "compute_tau") (fun f =>
  obind (load_global "beta") (fun b =>
  obind (as_value b) (fun beta =>
  obind (py_sub (PyInt 1) beta) (fun arg =>
  obind (call f [arg]) (fun tau =>
  obind (py_sub Z (PyArray L)) (fun d =>
  obind (py_le d tau) (fun C =>
  Return chgpts))))))))))).

(** [find_change_points(times, alpha)]: the function has no [return]
    statement, so a call that completes yields [None]. *)
Definition find_change_points (times : list xreal) (alpha : xreal)
  : outcome pyval :=
  obind (foldM (chunk_body times) [] (range_step (length times) chunk_sz))
        (fun _ => Return PyNone).

End ChangePoint.

(** ** photon_tools/fcs_mem.py *)

Module FcsMem.

(** *** Arrays and the heap *)

Record matrix : Type := Mat {
  nrows : nat;
  ncols : nat;
  entry : nat -> nat -> xreal
}.

Inductive ndarray : Type :=
| Arr1 (v : list xreal)
| Arr2 (m : matrix).

Definition shape (a : ndarray) : list nat :=
  match a with
  | Arr1 v => [length v]
  | Arr2 m => [nrows m; ncols m]
  end.

(** The heap is the list of the arrays allocated so far; a location is an
    index into it, and a fresh array is appended. *)
Abbreviation loc := nat (only parsing).
Abbreviation heap := (list ndarray) (only parsing).

(** Computations that read and update the heap and may raise. *)
Definition M (A : Type) : Type := heap -> heap * outcome A.

Definition ret {A} (a : A) : M A := fun h => (h, Return a).
Definition raise {A} (e : exn) : M A := fun h => (h, Raise e).
Definition lift {A} (o : outcome A) : M A := fun h => (h, o).

Definition bind {A B} (m : M A) (k : A -> M B) : M B :=
  fun h =>
    match m h with
    | (h', Return a) => k a h'
    | (h', Raise e) => (h', Raise e)
    end.

Notation "'let*' x ':=' m 'in' k" := (bind m (fun x => k))
  (at level 10, x name, m at level 100, k at level 200).

Definition alloc (a : ndarray) : M loc :=
  fun h => (h ++ [a], Return (length h)).

(** A location outside the heap is not an object of the program. *)
Definition load (l : loc) : M ndarray :=
  fun h =>
    match h !! l with
    | Some a => (h, Return a)
    | None => (h, Raise SystemError)
    end.

Definition write (l : loc) (a : ndarray) : M unit :=
  fun h =>
    match h !! l with
    | Some _ => (<[l := a]> h, Return tt)
    | None => (h, Raise SystemError)
    end.

(** Use of an array as a vector, respectively as a matrix.  Where the
    source would go on with an array of the other rank (outside of the
    contract of the solver) the model stops with [ValueError]. *)
Definition as_vector (a : ndarray) : M (list xreal) :=
  match a with
  | Arr1 v => ret v
  | Arr2 _ => raise ValueError
  end.

Definition as_matrix (a : ndarray) : M matrix :=
  match a with
  | Arr2 m => ret m
  | Arr1 _ => raise ValueError
  end.

Definition load1 (l : loc) : M (list xreal) :=
  let* a := load l in as_vector a.

Definition load2 (l : loc) : M matrix :=
  let* a := load l in as_matrix a.

(** [a[i] = x], in place. *)
Definition setitem1 (l : loc) (i : nat) (x : xreal) : M unit :=
  let* v := load1 l in
  if decide (i < length v)%nat then write l (Arr1 (<[i := x]> v))
  else raise IndexError.

(** [assert b], the interpreter being run with assertions enabled. *)
Definition assert_ (b : bool) : M unit :=
  if b then ret tt else raise AssertionError.

Fixpoint for_each {A} (l : list A) (body : A -> M unit) : M unit :=
  match l with
  | [] => ret tt
  | a :: l' => let* _ := body a in for_each l' body
  end.

Fixpoint collect {A B} (l : list A) (body : A -> M B) : M (list B) :=
  match l with
  | [] => ret []
  | a :: l' => let* b := body a in
               let* bs := collect l' body in
               ret (b :: bs)
  end.

(** *** numpy functions used by [mem] *)

Definition np_ones (n : nat) : list xreal := replicate n (Fin 1).
Definition np_zeros (n : nat) : list xreal := replicate n (Fin 0).

Definition np_eye (n : nat) : matrix :=
  Mat n n (fun i j => if decide (i = j) then Fin 1 else Fin 0).

Definition np_diag (v : list xreal) : matrix :=
  Mat (length v) (length v)
      (fun i j => if decide (i = j) then default (Fin 0) (v !! i) else Fin 0).

Definition neg2 (a : matrix) : matrix :=
  Mat (nrows a) (ncols a) (fun i j => - entry a i j)%X.

(** scalar times matrix *)
Definition scal2 (c : xreal) (a : matrix) : matrix :=
  Mat (nrows a) (ncols a) (fun i j => c * entry a i j)%X.

(** Broadcasting of one dimension: equal extents, or one of them 1. *)
Definition bdim (a b : nat) : option nat :=
  if decide (a = b) then Some a
  else if decide (a = 1%nat) then Some b
  else if decide (b = 1%nat) then Some a
  else None.

Definition bidx (extent i : nat) : nat :=
  if decide (extent = 1%nat) then 0%nat else i.

(** matrix plus matrix *)
Definition add2 (a b : matrix) : outcome matrix :=
  match bdim (nrows a) (nrows b), bdim (ncols a) (ncols b) with
  | Some nr, Some nc =>
      Return (Mat nr nc (fun i j =>
        entry a (bidx (nrows a) i) (bidx (ncols a) j)
        + entry b (bidx (nrows b) i) (bidx (ncols b) j))%X)
  | _, _ => Raise ValueError
  end.

(** [a[n,:]] *)
Definition row (a : matrix) (n : nat) : list xreal :=
  entry a n <$> seq 0 (ncols a).

(** [np.dot] of two vectors *)
Definition dot11 (u v : list xreal) : outcome xreal :=
  if decide (length u = length v) then Return (np_sum (zip_with xmul u v))
  else Raise ValueError.

(** [np.dot] of a matrix and a vector *)
Definition dot21 (a : matrix) (v : list xreal) : outcome (list xreal) :=
  if decide (ncols a = length v)
  then Return ((fun i => np_sum (zip_with xmul (row a i) v)) <$> seq 0 (nrows a))
  else Raise ValueError.

(** [np.linspace(start, stop)]: 50 samples, the last one being [stop]. *)
Definition linspace (start stop : xreal) : list xreal :=
  ((fun j => start + of_nat j * ((stop - start) / of_nat 49))%X <$> seq 0 49)
  ++ [stop].

(** True division of two Python integers. *)
Definition int_div (a b : nat) : outcome xreal :=
  if decide (b = 0%nat) then Raise ZeroDivisionError
  else Return (of_nat a / of_nat b)%X.

(** [np.sum(a * b / sigma**2)] *)
Definition weighted_sum (a b sigma : list xreal) : outcome xreal :=
  obind (broadcast1 xmul a b) (fun ab =>
  obind (broadcast1 xdiv ab ((fun s => s * s)%X <$> sigma)) (fun q =>
  Return (np_sum q))).

(** [H[m,n] = v] on the entries of a matrix *)
Definition upd2 (H : nat -> nat -> xreal) (m n : nat) (v : xreal)
  : nat -> nat -> xreal :=
  fun i j => if decide (i = m /\ j = n) then v else H i j.

(** *** The set-up of [H] and [g0]

    The two nested loops fill the freshly allocated arrays [H] and [g0]
    entry by entry.  Nothing else can see the two arrays while they are
    filled, so the loops are run on their contents and the result is
    stored afterwards. *)

Definition fill_entry (models : matrix) (Npts : nat) (sigma : list xreal)
    (n : nat) (H : nat -> nat -> xreal) (m : nat)
  : outcome (nat -> nat -> xreal) :=
  obind (int_div 2 Npts) (fun c =>
  obind (weighted_sum (row models m) (row models n) sigma) (fun s =>
  Return (upd2 H m n (c * s)%X))).

Definition fill_column (models : matrix) (Nmodels Npts : nat)
    (y sigma : list xreal)
    (st : (nat -> nat -> xreal) * list xreal) (n : nat)
  : outcome ((nat -> nat -> xreal) * list xreal) :=
  obind (int_div 2 Npts) (fun c =>
  obind (weighted_sum (row models n) y sigma) (fun s =>
  let g0 := <[n := (c * s)%X]> (snd st) in
  obind (foldM (fill_entry models Npts sigma n) (fst st) (seq 0 Nmodels))
        (fun H => Return (H, g0)))).

Definition assemble (models : matrix) (Nmodels Npts : nat)
    (y sigma : list xreal) (H : nat -> nat -> xreal) (g0 : list xreal)
  : outcome ((nat -> nat -> xreal) * list xreal) :=
  foldM (fill_column models Nmodels Npts y sigma) (H, g0) (seq 0 Nmodels).

(** The two fit matrices as the specification writes them. *)
Definition xsum_upto (n : nat) (f : nat -> xreal) : xreal :=
  np_sum (f <$> seq 0 n).

Definition at1 (v : list xreal) (i : nat) : xreal := default NaN (v !! i).

Definition H_spec (models : matrix) (sigma : list xreal) (m n : nat) : xreal :=
  (of_nat 2 / of_nat (ncols models)
   * xsum_upto (ncols models) (fun i =>
       entry models m i * entry models n i / (at1 sigma i * at1 sigma i)))%X.

Definition g0_spec (models : matrix) (y sigma : list xreal) (n : nat) : xreal :=
  (of_nat 2 / of_nat (ncols models)
   * xsum_upto (ncols models) (fun i =>
       entry models n i * at1 y i / (at1 sigma i * at1 sigma i)))%X.

(** What one turn of the outer loop makes of [H] and [g0] when it writes
    the values of the specification: column [n] of [H] and entry [n] of
    [g0]. *)
Definition filled_column (models : matrix) (y sigma : list xreal)
    (Nmodels : nat) (st : (nat -> nat -> xreal) * list xreal) (n : nat)
  : (nat -> nat -> xreal) * list xreal :=
  (fold_left (fun H m => upd2 H m n (H_spec models sigma m n))
             (seq 0 Nmodels) (fst st),
   <[n := g0_spec models y sigma n]> (snd st)).

(** *** [mem] *)

(** The arguments of the call of the solver. *)
Record solver_args : Type := SolverArgs {
  arg_Q : loc;
  arg_g : loc;
  arg_C : loc;
  arg_d : loc;
  arg_x0 : loc
}.

Definition arg_locs (a : solver_args) : list loc :=
  [arg_Q a; arg_g a; arg_C a; arg_d a; arg_x0 a].

(** What the loop keeps from the set-up. *)
Record fit : Type := Fit {
  fit_Nmodels : nat;
  fit_H : loc;
  fit_g0 : loc;
  fit_expected : option loc;
  fit_nu : xreal
}.

(** The plotting calls of [matplotlib] show their arguments and have no
    effect on the arrays. *)
Definition pl_plot (xs ys : list xreal) : M unit := ret tt.
Definition pl_show : M unit := ret tt.

Section Mem.

(** The contents of an array returned by [np.empty]. *)
Variable uninit1 : nat -> xreal.
Variable uninit2 : nat -> nat -> xreal.

(** [shrager], the solver of the quadratic sub-problem, is imported from
    a module that is not part of the sources; [mem] keeps the first
    component of the pair it returns. *)
Variable shrager : solver_args -> M loc.

Definition np_empty1 (n : nat) : list xreal := uninit1 <$> seq 0 n.
Definition np_empty2 (nr nc : nat) : matrix := Mat nr nc uninit2.

(** The head of [mem]: the shape of [models], the assertions on [y] and
    [sigma], and the default or the assertion for [expected]. *)
Definition mem_shapes (y models sigma : loc) (expected : option loc)
  : M (matrix * ndarray * ndarray) :=
  let* a_models := load models in
  let* mm := as_matrix a_models in
  let Nmodels := nrows mm in
  let Npts := ncols mm in
  let* a_y := load y in
  let* _ := assert_ (bool_decide (shape a_y = [Npts])) in
  let* a_sigma := load sigma in
  let* _ := assert_ (bool_decide (shape a_sigma = [Npts])) in
  let* _ := match expected with
            | None => ret tt
            | Some e => let* a_e := load e in
                        assert_ (bool_decide (shape a_e = [Nmodels]))
            end in
  ret (mm, a_y, a_sigma).

(** "Initial value of p": the default for [p0], its assertion, and the
    copy [p = p0.copy()]. *)
Definition mem_initial_p (Nmodels : nat) (p0 : option loc) : M loc :=
  let* p0 := match p0 with
             | None => alloc (Arr1 (np_ones Nmodels))
             | Some l => ret l
             end in
  let* a_p0 := load p0 in
  let* _ := assert_ (bool_decide (shape a_p0 = [Nmodels])) in
  alloc a_p0.

(** "Compute H and g^0": the two arrays are allocated by [np.empty] and
    filled by the nested loops. *)
Definition mem_matrices (mm : matrix) (a_y a_sigma : ndarray) : M (loc * loc) :=
  let Nmodels := nrows mm in
  let Npts := ncols mm in
  let* H := alloc (Arr2 (np_empty2 Nmodels Nmodels)) in
  let* g0 := alloc (Arr1 (np_empty1 Nmodels)) in
  let* yv := as_vector a_y in
  let* sv := as_vector a_sigma in
  let* Hg := lift (assemble mm Nmodels Npts yv sv uninit2 (np_empty1 Nmodels)) in
  let* _ := write H (Arr2 (Mat Nmodels Nmodels (fst Hg))) in
  let* _ := write g0 (Arr1 (snd Hg)) in
  ret (H, g0).

(** Everything before the loop. *)
Definition mem_setup (y models sigma : loc) (p0 expected : option loc)
    (nu : xreal) : M (fit * loc) :=
  let* s := mem_shapes y models sigma expected in
  let mm := fst (fst s) in
  let* p := mem_initial_p (nrows mm) p0 in
  let* Hg := mem_matrices mm (snd (fst s)) (snd s) in
  ret (Fit (nrows mm) (fst Hg) (snd Hg) expected nu, p).

(** [q(p)], the body of the lambda: the names [g0], [H], [nu] and [delta]
    are read when it is called. *)
Definition q_eval (f : fit) (delta p : loc) : M xreal :=
  let* g0v := load1 (fit_g0 f) in
  let* pv := load1 p in
  let* a := lift (dot11 g0v pv) in
  let* Hm := load2 (fit_H f) in
  let* dm := load2 delta in
  let* Qm := lift (add2 Hm (scal2 (fit_nu f) dm)) in
  let* Qp := lift (dot21 Qm pv) in
  let* b := lift (dot11 pv Qp) in
  ret (a - b / of_nat 2)%X.

(** The block under [if True:], which plots [q] along every coordinate
    and, doing so, overwrites the entries of [p]. *)
Definition plot_block (f : fit) (delta p : loc) : M unit :=
  let xs := linspace (Fin 1e-5) (of_nat 2) in
  let* _ := for_each (seq 0 (fit_Nmodels f)) (fun i =>
              let* ys := collect xs (fun x =>
                           let* _ := setitem1 p i x in
                           q_eval f delta p) in
              pl_plot xs ys) in
  pl_show.

(** One turn of the loop up to the call of the solver: the arguments of
    that call. *)
Definition mem_iter_args (f : fit) (p : loc) : M solver_args :=
  let* pv := load1 p in
  let* ratio := match fit_expected f with
                | None => ret ((fun x => x / of_nat 1)%X <$> pv)
                | Some e => let* ev := load1 e in lift (broadcast1 xdiv pv ev)
                end in
  let* dg := lift (broadcast1 xdiv (log <$> ratio) pv) in
  let* delta := alloc (Arr2 (np_diag dg)) in
  let* _ := plot_block f delta p in
  let* Hm := load2 (fit_H f) in
  let* dm := load2 delta in
  let* Qm := lift (add2 Hm (scal2 (fit_nu f) dm)) in
  let* Q := alloc (Arr2 Qm) in
  let* C := alloc (Arr2 (neg2 (np_eye (fit_Nmodels f)))) in
  let* d := alloc (Arr1 (np_zeros (fit_Nmodels f))) in
  ret (SolverArgs Q (fit_g0 f) C d p).

(** One turn of the loop: the new [p]. *)
Definition mem_iter (f : fit) (p : loc) : M loc :=
  let* args := mem_iter_args f p in
  shrager args.

(** The [while True:] loop, run for at most [fuel] turns.  [Some p] is the
    value of [return p]; [None] says that the loop is still running when
    the fuel is used up. *)
Fixpoint mem_loop (fuel : nat) (f : fit) (p : loc) : M (option loc) :=
  match fuel with
  | O => ret None
  | S fuel' =>
      let* pNew := mem_iter f p in
      let p := pNew in
      let converged := false in
      if converged then ret (Some p) else mem_loop fuel' f p
  end.

(** [mem(y, models, sigma, p0, expected, nu, delta_thresh)] *)
Definition mem (y models sigma : loc) (p0 expected : option loc)
    (nu delta_thresh : xreal) (fuel : nat) : M (option loc) :=
  let* fp := mem_setup y models sigma p0 expected nu in
  mem_loop fuel (fst fp) (snd fp).

End Mem.

(** *** Frame conditions *)

(** [h'] extends [h] and agrees with it on the locations in [P]. *)
Definition preserves (P : loc -> Prop) (h h' : heap) : Prop :=
  (length h <= length h')%nat
  /\ forall l, (l < length h)%nat -> P l -> h' !! l = h !! l.

(** A location that is not one of the protected arrays of [h]. *)
Definition outside (P : loc -> Prop) (h : heap) (l : loc) : Prop :=
  ~ ((l < length h)%nat /\ P l).

(** The solver writes only into the arrays it is given and into arrays
    that it allocates, and it returns one of these. *)
Definition solver_frame (shrager : solver_args -> M loc) : Prop :=
  forall a h,
    preserves (fun l => l ∉ arg_locs a) h (shrager a h).1
    /\ forall pNew, (shrager a h).2 = Return pNew ->
                    pNew ∈ arg_locs a \/ (length h <= pNew)%nat.

(** The solver is a function of its arguments: it leaves every array as
    it is and returns a new array. *)
Definition solver_pure (shrager : solver_args -> M loc) : Prop :=
  forall a h,
    preserves (fun _ => True) h (shrager a h).1
    /\ forall pNew, (shrager a h).2 = Return pNew -> (length h <= pNew)%nat.

(** [m] keeps the invariant [I] of the heap, whether it returns or
    raises, and what it returns satisfies [Q]. *)
Definition triple {A} (I : heap -> Prop) (m : M A) (Q : A -> Prop) : Prop :=
  forall h, I h -> I (m h).1 /\ forall a, (m h).2 = Return a -> Q a.

(** [m] returns on every heap that satisfies [Pre], and leaves a heap
    that satisfies [Post]. *)
Definition returns {A} (Pre : heap -> Prop) (m : M A)
    (Post : A -> heap -> Prop) : Prop :=
  forall h, Pre h -> exists a h', m h = (h', Return a) /\ Post a h'.

(** [m] returns on every heap that satisfies [Pre] and leaves the heap as
    it is. *)
Definition reads {A} (Pre : heap -> Prop) (m : M A) (Q : A -> Prop) : Prop :=
  forall h, Pre h -> exists a, m h = (h, Return a) /\ Q a.

(** The heap at the head of a turn of the loop: [H] is a square matrix
    and [g0], [expected] (when it is an array) and [p] are vectors, all of
    extent [Nmodels], and [p] is an array of its own. *)
Definition loop_ready (f : fit) (p : loc) (h : heap) : Prop :=
  (exists Hm, h !! fit_H f = Some (Arr2 Hm)
              /\ nrows Hm = fit_Nmodels f /\ ncols Hm = fit_Nmodels f)
  /\ (exists gv, h !! fit_g0 f = Some (Arr1 gv) /\ length gv = fit_Nmodels f)
  /\ (forall e, fit_expected f = Some e ->
                 exists ev, h !! e = Some (Arr1 ev)
                            /\ length ev = fit_Nmodels f)
  /\ (exists pv, h !! p = Some (Arr1 pv) /\ length pv = fit_Nmodels f)
  /\ p <> fit_H f /\ p <> fit_g0 f
  /\ (forall e, fit_expected f = Some e -> p <> e).

(** The heap inside the plotting block: moreover [delta] is a square
    matrix of the same extent. *)
Definition plot_ready (f : fit) (delta p : loc) (h : heap) : Prop :=
  loop_ready f p h
  /\ delta <> p
  /\ exists dm, h !! delta = Some (Arr2 dm)
                 /\ nrows dm = fit_Nmodels f /\ ncols dm = fit_Nmodels f.

(** The diagonal entry of [delta] for a weight [p] and an expected weight
    [e], and the expected weight of index [i]: the scalar 1 when
    [expected] is not given. *)
Definition delta_entry (e p : xreal) : xreal := (log (p / e) / p)%X.

Definition expected_at (ev : option (list xreal)) (i : nat) : xreal :=
  match ev with
  | None => of_nat 1
  | Some v => at1 v i
  end.

(** *** The scenario of the specification

    [y = [1,1,1]], [models = [[1,1,1],[0,0,1]]], [expected = [1,1]],
    [p0 = [1,1]], with [sigma] left open; the five arrays are the first
    five objects of the heap, in the order [y], [models], [sigma],
    [expected], [p0]. *)

Definition matrix_of_rows (nc : nat) (rows : list (list xreal)) : matrix :=
  Mat (length rows) nc
      (fun m i => default NaN (r ← rows !! m; r !! i)).

Definition scenario_models : matrix :=
  matrix_of_rows 3 [[Fin 1; Fin 1; Fin 1]; [Fin 0; Fin 0; Fin 1]].

Definition scenario_heap (y sigma : list xreal) : heap :=
  [Arr1 y; Arr2 scenario_models; Arr1 sigma;
   Arr1 [Fin 1; Fin 1]; Arr1 [Fin 1; Fin 1]].

Definition scenario_y : list xreal := [Fin 1; Fin 1; Fin 1].
Definition scenario_sigma : list xreal := [Fin 1; Fin 1; Fin 1].

(** Two solvers to try [mem] with: one works in place, it sets the first
    coordinate of [x0] to zero and returns [x0]; the other returns a copy
    of [x0] and writes nothing. *)
Definition solver_in_place (a : solver_args) : M loc :=
  let* _ := setitem1 (arg_x0 a) 0 (Fin 0) in
  ret (arg_x0 a).

Definition solver_copy (a : solver_args) : M loc :=
  let* x := load (arg_x0 a) in
  alloc x.

(** A heap at the head of a turn, for two models and no [expected]:
    [H], [g0] and [p = [3, 4]], in this order. *)
Definition turn_fit : fit := Fit 2 0 1 None (Fin 5e-6).

Definition turn_H : matrix := Mat 2 2 (fun _ _ => Fin 1).

Definition turn_heap : heap :=
  [Arr2 turn_H; Arr1 [Fin 1; Fin 1]; Arr1 [Fin 3; Fin 4]].

End FcsMem.

(** ** binary64 arithmetic

    The expressions of the source whose properties depend on rounding,
    on binary64 numbers.  A decimal literal denotes the nearest binary64
    number, as it does in Python. *)

Module Binary64.
Import PrimFloat FloatOps SpecFloat QArith.
#[local] Open Scope float_scope.
#[local] Set Warnings "-inexact-float".

(** A Python integer that meets a float (exact below [2**53]). *)
Definition of_nat (n : nat) : float := of_uint63 (Uint63.of_Z (Z.of_nat n)).

(** True division of two Python integers. *)
Definition int_div (a b : nat) : outcome float :=
  if decide (b = 0%nat) then Raise ZeroDivisionError
  else Return (of_nat a / of_nat b).

(** [np.sum] of a one-dimensional array, the elements being added from
    left to right (the order numpy follows for an array of fewer than
    eight elements; the sum of a single element is that element in any
    order). *)
Definition np_sum (a : list float) : float := fold_left add a 0.

(** [np.sum(a * b / sigma**2)] for three arrays of one length. *)
Definition weighted_sum (a b sigma : list float) : float :=
  np_sum (zip_with div (zip_with mul a b) ((fun s => s * s) <$> sigma)).

(** [models[n,:]], the matrix being the list of its rows. *)
Definition row (models : list (list float)) (n : nat) : list float :=
  default [] (models !! n).

(** The number that line 50 stores in [H[m,n]]:
    [2 / Npts * np.sum(models[m,:] * models[n,:] / sigma**2)]. *)
Definition H_entry (models : list (list float)) (Npts : nat)
    (sigma : list float) (m n : nat) : outcome float :=
  obind (int_div 2 Npts) (fun c =>
  Return (c * weighted_sum (row models m) (row models n) sigma)).

Fixpoint each {A B} (f : A -> outcome B) (l : list A) : outcome (list B) :=
  match l with
  | [] => Return []
  | a :: l' => obind (f a) (fun b =>
               obind (each f l') (fun bs => Return (b :: bs)))
  end.

(** [H] after the two loops of lines 47 to 50, as the list of its rows,
    for [models] of shape [(Nmodels, Npts)] and [sigma] of shape
    [(Npts,)].  Every entry is written once, so the order of the two
    loops does not show in the result. *)
Definition mem_H (models : list (list float)) (Npts : nat)
    (sigma : list float) : outcome (list (list float)) :=
  let Nmodels := length models in
  each (fun m => each (H_entry models Npts sigma m) (seq 0 Nmodels))
       (seq 0 Nmodels).

(** [k / Vk] at one index, with [Vk = times / T]: the argument of the
    first logarithm of [compute_likelihood]. *)
Definition first_quotient (k : nat) (t T : float) : float :=
  of_nat k / (t / T).

(** The rational number that a finite binary64 number stands for. *)
Definition exact (x : float) : option Q :=
  match Prim2SF x with
  | S754_zero _ => Some 0%Q
  | S754_finite s m e =>
      Some (inject_Z (if s then Z.neg m else Z.pos m) * Qpower 2 e)%Q
  | S754_infinity _ | S754_nan => None
  end.

Definition exact_matrix (H : list (list float)) : option (list (list Q)) :=
  mapM (mapM exact) H.

Definition Qsum (l : list Q) : Q := foldr Qplus 0%Q l.

(** The quadratic form [x^T H x] over the rationals. *)
Definition quad_form (H : list (list Q)) (x : list Q) : Q :=
  Qsum (zip_with (fun xm Hm =>
          Qsum (zip_with (fun h xn => xm * h * xn)%Q Hm x)) x H).

(** The models [[0.3], [0.7]] (two models, one point) with the standard
    error [1.0]. *)
Definition tilted_models : list (list float) := [[0.3]; [0.7]].
Definition unit_sigma : list float := [1].

End Binary64.

(** * Properties *)

(** ** Arithmetic of [xreal] on finite values *)

Lemma signed_inf_pos r : 0 < r -> signed_inf r = PInf.
Proof. intros H. unfold signed_inf. destruct (Rlt_dec 0 r); [reflexivity | lra]. Qed.

Lemma signed_inf_zero : signed_inf 0 = NaN.
Proof.
  unfold signed_inf.
  destruct (Rlt_dec 0 0); [lra |]. destruct (Rlt_dec 0 0); [lra | reflexivity].
Qed.

Lemma xdiv_fin a b : b <> 0 -> (Fin a / Fin b)%X = Fin (a / b).
Proof. intros H. simpl. destruct (Req_dec_T b 0); [contradiction | reflexivity]. Qed.

Lemma xdiv_fin_zero a : (Fin a / Fin 0)%X = signed_inf a.
Proof. simpl. destruct (Req_dec_T 0 0); [reflexivity | lra]. Qed.

Lemma log_fin a : 0 < a -> log (Fin a) = Fin (ln a).
Proof. intros H. simpl. destruct (Rlt_dec 0 a); [reflexivity | lra]. Qed.


Lemma log_zero : log (Fin 0) = NInf.
Proof.
  simpl. destruct (Rlt_dec 0 0); [lra |]. destruct (Rlt_dec 0 0); [lra | reflexivity].
Qed.

Lemma xlt_fin a b : xlt (Fin a) (Fin b) = true <-> a < b.
Proof. simpl. destruct (Rlt_dec a b); split; intros; (easy || lra). Qed.

Lemma xle_fin a b : xle (Fin a) (Fin b) = true <-> a <= b.
Proof. simpl. destruct (Rle_dec a b); split; intros; (easy || lra). Qed.

Lemma xlt_fin_true a b : a < b -> xlt (Fin a) (Fin b) = true.
Proof. apply xlt_fin. Qed.

Lemma xle_fin_true a b : a <= b -> xle (Fin a) (Fin b) = true.
Proof. apply xle_fin. Qed.

Lemma xle_fin_false a b : b < a -> xle (Fin a) (Fin b) = false.
Proof. intros H. simpl. destruct (Rle_dec a b); [lra | reflexivity]. Qed.

Lemma ln_square r : 0 < r -> ln (r * r) = 2 * ln r.
Proof. intros H. rewrite ln_mult by assumption. lra. Qed.

Lemma ln_cube r : 0 < r -> ln (r * r * r) = 3 * ln r.
Proof.
  intros H. assert (0 < r * r) by nra.
  rewrite ln_mult by assumption. rewrite ln_square by assumption. lra.
Qed.

(** ** The critical value [tau95] *)

Section Tau95.
Import ChangePoint.

Lemma tau95_low (n : R) :
  1 < n -> n <= 100 ->
  tau95 (Fin n) =
  Return (Fin ((3.0123 + (0.4835 - 2 * 0.00957 - 3 * 0.001488) * ln n) / n)).
Proof.
  intros Hn Hb. assert (Hpos : 0 < n) by lra.
  assert (Hsq : 0 < n * n) by nra.
  assert (Hcu : 0 < n * n * n) by nra.
  unfold tau95.
  rewrite (xlt_fin_true 1 n), (xle_fin_true n 100) by lra.
  cbn [andb xmul xadd xsub xneg].
  rewrite !log_fin by assumption.
  cbn [xmul xadd xsub xneg]. rewrite xdiv_fin by lra.
  rewrite ln_square, ln_cube by assumption.
  do 2 f_equal. lra.
Qed.

Lemma tau95_high (n : R) :
  100 < n ->
  tau95 (Fin n) =
  Return (Fin ((3.0806 + (0.4894 - 2 * 0.02086) * ln n) / n)).
Proof.
  intros Hb. assert (Hpos : 0 < n) by lra.
  assert (Hsq : 0 < n * n) by nra.
  unfold tau95.
  rewrite (xlt_fin_true 1 n), (xle_fin_false n 100) by lra.
  cbn [andb]. rewrite (xlt_fin_true 100 n) by lra.
  cbn [xmul xadd xsub xneg].
  rewrite !log_fin by assumption.
  cbn [xmul xadd xsub xneg]. rewrite xdiv_fin by lra.
  rewrite ln_square by assumption.
  do 2 f_equal. lra.
Qed.

(** C9.  Each branch of [tau95] is affine in [log n], because the source
    takes the logarithm of the powers [n**2] and [n**3] instead of the
    powers of the logarithm: for [1 < n <= 100] the value is
    [(3.0123 + (0.4835 - 2*0.00957 - 3*0.001488) log n) / n] and for
    [n > 100] it is [(3.0806 + (0.4894 - 2*0.02086) log n) / n]. *)
Theorem tau95_affine_in_log (n : R) :
  1 < n ->
  (n <= 100 ->
   tau95 (Fin n) =
   Return (Fin ((3.0123 + (0.4835 - 2 * 0.00957 - 3 * 0.001488) * ln n) / n)))
  /\ (100 < n ->
      tau95 (Fin n) =
      Return (Fin ((3.0806 + (0.4894 - 2 * 0.02086) * ln n) / n))).
Proof.
  intros Hn. split; intros Hb; [apply tau95_low | apply tau95_high]; assumption.
Qed.

Lemma tau95_affine_in_log_witness :
  1 < 50 /\
  tau95 (Fin 50) =
  Return (Fin ((3.0123 + (0.4835 - 2 * 0.00957 - 3 * 0.001488) * ln 50) / 50)).
Proof.
  split; [lra |].
  apply (proj1 (tau95_affine_in_log 50 ltac:(lra))). lra.
Defined.

End Tau95.

Section Tau95Errors.
Import ChangePoint.



End Tau95Errors.

(** ** The likelihood profile *)

Section Likelihood.
Import ChangePoint.

Lemma compute_likelihood_lookup (times : list xreal) (T : xreal) :
  last times = Some T ->
  exists L,
    compute_likelihood times = Return L
    /\ length L = length times
    /\ forall k t, times !! k = Some t ->
                   L !! k = Some (L_spec (length times) k (Vk_spec T t)).
Proof.
  intros HT. unfold compute_likelihood. rewrite HT.
  eexists. split; [reflexivity |]. split.
  - rewrite length_fmap, !length_zip_with, !length_fmap, !length_zip_with,
      !length_fmap, length_seq. lia.
  - intros k t Hk.
    assert (Hlt : (k < length times)%nat) by (eapply lookup_lt_Some; eauto).
    rewrite list_lookup_fmap, !lookup_zip_with, !list_lookup_fmap,
      !lookup_zip_with, !list_lookup_fmap, lookup_seq_lt, Hk by assumption.
    reflexivity.
Qed.

(** C4.  For a series of length [N >= 2] whose last timestamp [T] is
    positive, [compute_likelihood] returns an array [L] of length [N] with
    [L[k] = 2k log(k/Vk[k]) + 2(N-k) log((N-k)/(1-Vk[k])) - 2N log N]
    and [Vk[k] = times[k]/T], for every index [k] in [0, N). *)
Theorem compute_likelihood_formula (times : list xreal) (T : R) :
  (2 <= length times)%nat ->
  last times = Some (Fin T) ->
  0 < T ->
  exists L,
    compute_likelihood times = Return L
    /\ length L = length times
    /\ forall k t, (k < length times)%nat -> times !! k = Some t ->
                   L !! k = Some (L_spec (length times) k (Vk_spec (Fin T) t)).
Proof.
  intros _ HT _.
  destruct (compute_likelihood_lookup times (Fin T) HT) as (L & HL & Hlen & Hk).
  exists L. repeat split; auto.
Qed.

Lemma compute_likelihood_formula_witness :
  exists L,
    compute_likelihood [Fin 1; Fin 2; Fin 4] = Return L
    /\ length L = 3%nat
    /\ L !! 1%nat = Some (L_spec 3 1 (Vk_spec (Fin 4) (Fin 2))).
Proof.
  destruct (compute_likelihood_formula [Fin 1; Fin 2; Fin 4] 4)
    as (L & HL & Hlen & Hk); [simpl; lia | reflexivity | lra |].
  exists L. repeat split; auto.
  apply Hk; [simpl; lia | reflexivity].
Defined.

Lemma INR_pos (k : nat) : (1 <= k)%nat -> 0 < INR k.
Proof. intros H. apply lt_0_INR. lia. Qed.

(** The last entry of the profile is always [+inf]: [Vk] is [T/T = 1]
    there, so that [(N-k)/(1-Vk)] is [1/0]. *)
Lemma likelihood_last_infinite (times : list xreal) (T : R) :
  (2 <= length times)%nat ->
  last times = Some (Fin T) ->
  0 < T ->
  exists L, compute_likelihood times = Return L
            /\ L !! (length times - 1)%nat = Some PInf.
Proof.
  intros HN HT Hpos.
  destruct (compute_likelihood_lookup times (Fin T) HT) as (L & HL & _ & Hk).
  exists L. split; [assumption |].
  rewrite last_lookup in HT.
  replace (Init.Nat.pred (length times)) with (length times - 1)%nat in HT by lia.
  rewrite (Hk _ _ HT). f_equal.
  set (N := length times) in *. unfold L_spec, Vk_spec, of_nat.
  replace (N - (N - 1))%nat with 1%nat by lia.
  assert (Hk' : 0 < INR (N - 1)) by (apply INR_pos; lia).
  assert (HTT : T / T = 1) by (field; lra).
  rewrite (xdiv_fin T T) by lra. rewrite HTT.
  rewrite xdiv_fin by lra.
  rewrite log_fin by (apply Rdiv_lt_0_compat; lra).
  cbn [xsub xneg xadd].
  replace (1 + Ropp 1) with 0 by lra.
  rewrite xdiv_fin_zero, signed_inf_pos by (simpl; lra).
  rewrite log_fin by (apply INR_pos; lia).
  cbn [log xmul]. rewrite signed_inf_pos by (apply INR_pos; lia).
  reflexivity.
Qed.

(** The first entry of the profile is always NaN: [k = 0] multiplies the
    logarithm of [0/Vk], which is [-inf] or NaN, by zero. *)
Lemma likelihood_first_nan (times : list xreal) (T t0 : R) :
  last times = Some (Fin T) ->
  0 < T ->
  times !! 0%nat = Some (Fin t0) ->
  exists L, compute_likelihood times = Return L /\ L !! 0%nat = Some NaN.
Proof.
  intros HT Hpos Ht0.
  destruct (compute_likelihood_lookup times (Fin T) HT) as (L & HL & _ & Hk).
  exists L. split; [assumption |].
  rewrite (Hk _ _ Ht0). f_equal.
  unfold L_spec, Vk_spec, of_nat. rewrite xdiv_fin by lra.
  change (2 * 0)%nat with 0%nat. change (INR 0) with 0.
  destruct (Req_dec_T (t0 / T) 0) as [E | E].
  - rewrite E, xdiv_fin_zero, signed_inf_zero. reflexivity.
  - rewrite xdiv_fin by assumption.
    replace (0 / (t0 / T)) with 0 by (unfold Rdiv; ring).
    rewrite log_zero.
    change (Fin 0 * NInf)%X with (signed_inf (Ropp 0)).
    replace (Ropp 0) with 0 by ring. rewrite signed_inf_zero. reflexivity.
Qed.




End Likelihood.

Section LikelihoodRounding.
Import PrimFloat Binary64.
#[local] Open Scope float_scope.

(** In binary64 arithmetic an entry in between need not be finite.  The
    series [0, 2**-1030, 1] is strictly increasing and starts at zero;
    at the index [k = 1] the quotient [k / Vk] is [1 / 2**-1030], which
    overflows to [+inf], and [numpy.log] gives [+inf] for it. *)
Lemma first_quotient_overflows :
  first_quotient 1 0x1p-1030 1 = infinity.
Proof. vm_compute. reflexivity. Qed.

End LikelihoodRounding.

(** ** The chunked scan [find_change_points] *)

Section FindChangePoints.
Import ChangePoint.

Lemma range_step_first (n : nat) :
  (0 < n)%nat -> exists rest, range_step n chunk_sz = 0%nat :: rest.
Proof.
  intros Hn. unfold range_step, chunk_sz.
  assert (H : (1 <= (n + 1000 - 1) / 1000)%nat).
  { apply Nat.div_le_lower_bound; lia. }
  destruct ((n + 1000 - 1) / 1000)%nat as [| m]; [lia |].
  simpl. eexists. reflexivity.
Qed.

Lemma compute_likelihood_returns (t : list xreal) :
  t <> [] -> exists L, compute_likelihood t = Return L.
Proof.
  intros Ht. destruct (last t) as [T |] eqn:HT.
  - destruct (compute_likelihood_lookup t T HT) as (L & HL & _). eauto.
  - apply last_None in HT. contradiction.
Qed.

Lemma argmax_unbound : load_global "argmax" = Raise (NameError "argmax").
Proof. reflexivity. Qed.

(** A non-empty series never gets past its first chunk: the name [argmax]
    is bound neither in the module nor among the builtins. *)
Lemma find_change_points_raises (times : list xreal) (alpha : xreal) :
  times <> [] -> find_change_points times alpha = Raise (NameError "argmax").
Proof.
  intros Hne. unfold find_change_points.
  destruct (range_step_first (length times)) as [rest ->].
  { destruct times; [contradiction | simpl; lia]. }
  cbn [foldM]. unfold chunk_body at 1.
  destruct (compute_likelihood_returns (take chunk_sz (drop 0 times))) as [L ->].
  { destruct times; [contradiction | discriminate]. }
  cbn [obind]. rewrite argmax_unbound. reflexivity.
Qed.

(** C3, the code at the failing input.  On the two-event series [1, 2]
    the call raises [NameError] for [argmax] instead of returning a result
    for the chunk, and on the empty series it returns [None]. *)
Theorem find_change_points_no_results :
  find_change_points [Fin 1; Fin 2] (Fin 0.05) = Raise (NameError "argmax")
  /\ find_change_points [] (Fin 0.05) = Return PyNone.
Proof.
  split; [apply find_change_points_raises; discriminate | reflexivity].
Qed.

End FindChangePoints.

(** ** Loops whose body cannot fail *)

Lemma foldM_total {A B} (body : A -> B -> outcome A) (f : A -> B -> A)
    (l : list B) (acc : A) :
  (forall a b, b ∈ l -> body a b = Return (f a b)) ->
  foldM body acc l = Return (fold_left f l acc).
Proof.
  revert acc. induction l as [| b l IH]; intros acc Hbody; [reflexivity |].
  cbn [foldM fold_left]. rewrite Hbody by (left; reflexivity).
  cbn [obind]. apply IH. intros a b' Hb'. apply Hbody. right. assumption.
Qed.

Lemma broadcast1_same_length op (a b : list xreal) :
  length a = length b -> broadcast1 op a b = Return (zip_with op a b).
Proof. intros H. unfold broadcast1. rewrite decide_True by assumption. reflexivity. Qed.

(** ** The set-up of [mem] *)

Section Assembly.
Import FcsMem.

Variable models : matrix.
Variables y sigma : list xreal.
Hypothesis Hy : length y = ncols models.
Hypothesis Hsigma : length sigma = ncols models.

Lemma length_row n : length (row models n) = ncols models.
Proof. unfold row. rewrite length_fmap, length_seq. reflexivity. Qed.

Lemma lookup_row n i :
  (i < ncols models)%nat -> row models n !! i = Some (entry models n i).
Proof.
  intros Hi. unfold row. rewrite list_lookup_fmap, lookup_seq_lt by assumption.
  reflexivity.
Qed.

(** [np.sum(a * b / sigma**2)] is the indexed sum of the specification. *)
Lemma weighted_sum_indexed (a b : list xreal) (fa fb : nat -> xreal) :
  length a = ncols models -> length b = ncols models ->
  (forall i, (i < ncols models)%nat -> a !! i = Some (fa i)) ->
  (forall i, (i < ncols models)%nat -> b !! i = Some (fb i)) ->
  weighted_sum a b sigma =
  Return (xsum_upto (ncols models)
            (fun i => fa i * fb i / (at1 sigma i * at1 sigma i))%X).
Proof.
  intros Ha Hb Hfa Hfb. unfold weighted_sum.
  rewrite broadcast1_same_length by congruence. cbn [obind].
  rewrite broadcast1_same_length
    by (rewrite length_zip_with, length_fmap; lia).
  cbn [obind]. unfold xsum_upto. do 2 f_equal.
  apply list_eq. intros i.
  rewrite !lookup_zip_with, !list_lookup_fmap.
  destruct (decide (i < ncols models)%nat) as [Hi | Hi].
  - destruct (lookup_lt_is_Some_2 sigma i) as [s Hs]; [lia |].
    rewrite (Hfa i Hi), (Hfb i Hi), lookup_seq_lt, Hs by assumption.
    cbn. unfold at1. rewrite Hs. reflexivity.
  - rewrite (lookup_ge_None_2 a), (lookup_ge_None_2 (seq 0 _))
      by (rewrite ?length_seq; lia).
    reflexivity.
Qed.

Lemma at1_lookup (v : list xreal) i :
  (i < length v)%nat -> v !! i = Some (at1 v i).
Proof.
  intros Hi. destruct (lookup_lt_is_Some_2 v i Hi) as [x Hx].
  unfold at1. rewrite Hx. reflexivity.
Qed.

Hypothesis Hpts : ncols models <> 0%nat.

Lemma fill_entry_total n H m :
  fill_entry models (ncols models) sigma n H m =
  Return (upd2 H m n (H_spec models sigma m n)).
Proof.
  unfold fill_entry, int_div. rewrite decide_False by assumption.
  cbn [obind].
  rewrite (weighted_sum_indexed _ _ (entry models m) (entry models n))
    by (auto using length_row, lookup_row).
  reflexivity.
Qed.

(** The inner loop has filled column [n] for the rows in [l]. *)
Lemma fill_rows_entry (n : nat) (l : list nat) (H : nat -> nat -> xreal) i j :
  fold_left (fun H m => upd2 H m n (H_spec models sigma m n)) l H i j =
  if decide (i ∈ l /\ j = n) then H_spec models sigma i n else H i j.
Proof.
  revert H. induction l as [| m l IH]; intros H.
  - cbn [fold_left]. rewrite decide_False; [reflexivity |].
    intros [Hi _]. inversion Hi.
  - cbn [fold_left]. rewrite IH.
    destruct (decide (i ∈ l /\ j = n)) as [[Hil Hj] | Hno].
    + rewrite decide_True; [reflexivity |]. split; [right |]; assumption.
    + unfold upd2. destruct (decide (i = m /\ j = n)) as [[-> ->] | Hno'].
      * rewrite decide_True; [reflexivity |]. split; [left |]; reflexivity.
      * rewrite decide_False; [reflexivity |].
        intros [Hi Hj]. apply elem_of_cons in Hi as [-> | Hi]; tauto.
Qed.

Lemma fill_column_total Nmodels st n :
  fill_column models Nmodels (ncols models) y sigma st n =
  Return (filled_column models y sigma Nmodels st n).
Proof.
  unfold fill_column, int_div. rewrite decide_False by assumption.
  cbn [obind].
  rewrite (weighted_sum_indexed _ _ (entry models n) (at1 y))
    by (auto using length_row, lookup_row;
        intros i Hi; apply at1_lookup; lia).
  cbn [obind].
  rewrite (foldM_total _ (fun H m => upd2 H m n (H_spec models sigma m n)))
    by (intros; apply fill_entry_total).
  reflexivity.
Qed.

Lemma filled_columns_H Nmodels (l : list nat) st i j :
  fst (fold_left (filled_column models y sigma Nmodels) l st) i j =
  if decide ((i < Nmodels)%nat /\ j ∈ l) then H_spec models sigma i j
  else fst st i j.
Proof.
  revert st. induction l as [| n l IH]; intros st.
  - cbn [fold_left]. rewrite decide_False; [reflexivity |].
    intros [_ Hj]. inversion Hj.
  - cbn [fold_left]. rewrite IH.
    destruct (decide ((i < Nmodels)%nat /\ j ∈ l)) as [[Hi Hj] | Hno].
    + rewrite decide_True; [reflexivity |]. split; [| right]; assumption.
    + cbn [filled_column fst]. rewrite fill_rows_entry.
      destruct (decide (i ∈ seq 0 Nmodels /\ j = n)) as [[Hi ->] | Hno'].
      * apply elem_of_seq in Hi.
        rewrite decide_True; [reflexivity |]. split; [lia | left; reflexivity].
      * rewrite decide_False; [reflexivity |].
        intros [Hi Hj]. apply elem_of_cons in Hj as [-> | Hj]; [| tauto].
        apply Hno'. split; [| reflexivity]. apply elem_of_seq. lia.
Qed.

Lemma filled_columns_g0_length Nmodels (l : list nat) st :
  length (snd (fold_left (filled_column models y sigma Nmodels) l st)) = length (snd st).
Proof.
  revert st. induction l as [| n l IH]; intros st; [reflexivity |].
  cbn [fold_left]. rewrite IH. cbn [filled_column snd].
  apply length_insert.
Qed.

Lemma filled_columns_g0 Nmodels (l : list nat) st n :
  NoDup l -> n ∈ l -> (n < length (snd st))%nat ->
  snd (fold_left (filled_column models y sigma Nmodels) l st) !! n =
  Some (g0_spec models y sigma n).
Proof.
  intros Hnd. revert st.
  induction Hnd as [| n' l Hnotin Hnd IH]; intros st Hn Hlen.
  - inversion Hn.
  - cbn [fold_left]. apply elem_of_cons in Hn as [-> | Hn].
    + clear IH. assert (Hkeep : forall l st,
        n' ∉ l -> snd (fold_left (filled_column models y sigma Nmodels) l st) !! n'
                  = snd st !! n').
      { clear. induction l as [| k l IH]; intros st Hk; [reflexivity |].
        cbn [fold_left]. rewrite IH by (intros ?; apply Hk; right; assumption).
        cbn [filled_column snd]. apply list_lookup_insert_ne.
        intros ->. apply Hk. left. }
      rewrite Hkeep by assumption. cbn [filled_column snd].
      apply list_lookup_insert_eq. assumption.
    + apply IH; [assumption |]. cbn [filled_column snd].
      rewrite length_insert. assumption.
Qed.

(** The two nested loops compute the matrices of the specification, and
    what [np.empty] had left in the arrays is overwritten everywhere. *)
Lemma assemble_spec (Nmodels : nat) (H0 : nat -> nat -> xreal)
    (g00 : list xreal) :
  length g00 = Nmodels ->
  exists Hf gv,
    assemble models Nmodels (ncols models) y sigma H0 g00 = Return (Hf, gv)
    /\ (forall m n, (m < Nmodels)%nat -> (n < Nmodels)%nat ->
                    Hf m n = H_spec models sigma m n)
    /\ length gv = Nmodels
    /\ (forall n, (n < Nmodels)%nat -> gv !! n = Some (g0_spec models y sigma n)).
Proof.
  intros Hlen. unfold assemble.
  rewrite (foldM_total _ (filled_column models y sigma Nmodels))
    by (intros; apply fill_column_total).
  destruct (fold_left (filled_column models y sigma Nmodels) (seq 0 Nmodels) (H0, g00))
    as [Hf gv] eqn:E.
  exists Hf, gv. split; [reflexivity |].
  assert (EH : Hf = fst (fold_left (filled_column models y sigma Nmodels) (seq 0 Nmodels) (H0, g00)))
    by (rewrite E; reflexivity).
  assert (Eg : gv = snd (fold_left (filled_column models y sigma Nmodels) (seq 0 Nmodels) (H0, g00)))
    by (rewrite E; reflexivity).
  split; [| split].
  - intros m n Hm Hn. rewrite EH, filled_columns_H.
    rewrite decide_True; [reflexivity |].
    split; [assumption | apply elem_of_seq; lia].
  - rewrite Eg, filled_columns_g0_length. assumption.
  - intros n Hn. rewrite Eg.
    apply filled_columns_g0;
      [apply NoDup_seq | apply elem_of_seq; lia | cbn [snd]; lia].
Qed.

End Assembly.

(** ** Running the heap monad *)

Section Run.
Import FcsMem.

Lemma run_ret {A B} (a : A) (k : A -> M B) h : bind (ret a) k h = k a h.
Proof. reflexivity. Qed.

Lemma run_lift {A B} (a : A) (k : A -> M B) h :
  bind (lift (Return a)) k h = k a h.
Proof. reflexivity. Qed.

Lemma run_alloc {B} (a : ndarray) (k : loc -> M B) h :
  bind (alloc a) k h = k (length h) (h ++ [a]).
Proof. reflexivity. Qed.

Lemma run_load {B} l a (k : ndarray -> M B) h :
  h !! l = Some a -> bind (load l) k h = k a h.
Proof. intros H. unfold bind, load. rewrite H. reflexivity. Qed.

Lemma run_write {B} l a x (k : unit -> M B) h :
  h !! l = Some x -> bind (write l a) k h = k tt (<[l := a]> h).
Proof. intros H. unfold bind, write. rewrite H. reflexivity. Qed.

Lemma run_assert {B} (P : Prop) `{Decision P} (k : unit -> M B) h :
  P -> bind (assert_ (bool_decide P)) k h = k tt h.
Proof. intros HP. rewrite bool_decide_eq_true_2 by assumption. reflexivity. Qed.

Lemma run_assert_fail {B} (P : Prop) `{Decision P} (k : unit -> M B) h :
  ~ P -> bind (assert_ (bool_decide P)) k h = (h, Raise AssertionError).
Proof. intros HP. rewrite bool_decide_eq_false_2 by assumption. reflexivity. Qed.

Lemma run_bind_assoc {A B C} (m : M A) (k : A -> M B) (k' : B -> M C) h :
  bind (bind m k) k' h = bind m (fun a => bind (k a) k') h.
Proof. unfold bind. destruct (m h) as [h' [a | e]]; reflexivity. Qed.

End Run.

(** ** The assertions of [mem] and what the set-up leaves on the heap *)

Section Setup.
Import FcsMem.

Variable uninit1 : nat -> xreal.
Variable uninit2 : nat -> nat -> xreal.

Variable h : heap.
Variables y models sigma : loc.
Variables p0 expected : option loc.
Variable nu : xreal.
Variable mm : matrix.
Variables a_y a_sigma : ndarray.

Hypothesis Hmodels : h !! models = Some (Arr2 mm).
Hypothesis Hy : h !! y = Some a_y.
Hypothesis Hsigma : h !! sigma = Some a_sigma.

(** The optional arguments, when given, are arrays of the heap. *)
Hypothesis Hexpected : forall e, expected = Some e -> is_Some (h !! e).
Hypothesis Hp0 : forall l, p0 = Some l -> is_Some (h !! l).

Lemma mem_shapes_rejects :
  shape a_y <> [ncols mm]
  \/ shape a_sigma <> [ncols mm]
  \/ (exists e a_e, expected = Some e /\ h !! e = Some a_e
                    /\ shape a_e <> [nrows mm]) ->
  mem_shapes y models sigma expected h = (h, Raise AssertionError).
Proof.
  intros Hbad. unfold mem_shapes.
  rewrite (run_load _ _ _ _ Hmodels). cbn [as_matrix]. rewrite run_ret.
  rewrite (run_load _ _ _ _ Hy).
  destruct (decide (shape a_y = [ncols mm])) as [Sy | Sy];
    [rewrite run_assert by assumption
    | rewrite run_assert_fail by assumption; reflexivity].
  rewrite (run_load _ _ _ _ Hsigma).
  destruct (decide (shape a_sigma = [ncols mm])) as [Ss | Ss];
    [rewrite run_assert by assumption
    | rewrite run_assert_fail by assumption; reflexivity].
  destruct Hbad as [? | [? | (e & a_e & -> & He & Hne)]];
    [contradiction | contradiction |].
  rewrite run_bind_assoc, (run_load _ _ _ _ He).
  rewrite run_assert_fail by assumption. reflexivity.
Qed.

Lemma mem_shapes_accepts :
  shape a_y = [ncols mm] ->
  shape a_sigma = [ncols mm] ->
  (forall e, expected = Some e ->
             exists a_e, h !! e = Some a_e /\ shape a_e = [nrows mm]) ->
  mem_shapes y models sigma expected h = (h, Return (mm, a_y, a_sigma)).
Proof.
  clear Hexpected. intros Sy Ss Se. unfold mem_shapes.
  rewrite (run_load _ _ _ _ Hmodels). cbn [as_matrix]. rewrite run_ret.
  rewrite (run_load _ _ _ _ Hy), run_assert by assumption.
  rewrite (run_load _ _ _ _ Hsigma), run_assert by assumption.
  destruct expected as [e |]; [| reflexivity].
  destruct (Se e eq_refl) as (a_e & He & Hsh).
  rewrite run_bind_assoc, (run_load _ _ _ _ He), run_assert by assumption.
  reflexivity.
Qed.

Lemma mem_initial_p_rejects l a_p0 :
  p0 = Some l -> h !! l = Some a_p0 -> shape a_p0 <> [nrows mm] ->
  mem_initial_p (nrows mm) p0 h = (h, Raise AssertionError).
Proof.
  intros -> Hl Hne. unfold mem_initial_p.
  rewrite run_ret, (run_load _ _ _ _ Hl).
  unfold bind. rewrite bool_decide_eq_false_2 by assumption. reflexivity.
Qed.

Lemma mem_setup_rejects :
  shape a_y <> [ncols mm]
  \/ shape a_sigma <> [ncols mm]
  \/ (exists e a_e, expected = Some e /\ h !! e = Some a_e
                    /\ shape a_e <> [nrows mm])
  \/ (exists l a_p0, p0 = Some l /\ h !! l = Some a_p0
                     /\ shape a_p0 <> [nrows mm]) ->
  mem_setup uninit1 uninit2 y models sigma p0 expected nu h
  = (h, Raise AssertionError).
Proof.
  intros Hbad. unfold mem_setup.
  destruct (decide (shape a_y = [ncols mm])) as [Sy | Sy];
    [| unfold bind at 1; rewrite mem_shapes_rejects by tauto; reflexivity].
  destruct (decide (shape a_sigma = [ncols mm])) as [Ss | Ss];
    [| unfold bind at 1; rewrite mem_shapes_rejects by tauto; reflexivity].
  destruct Hbad as [? | [? | Hbad]]; [contradiction | contradiction |].
  assert (Hdec : (forall e, expected = Some e ->
                    exists a_e, h !! e = Some a_e /\ shape a_e = [nrows mm])
                 \/ (exists e a_e, expected = Some e /\ h !! e = Some a_e
                                   /\ shape a_e <> [nrows mm])).
  { destruct expected as [e |]; [| left; discriminate].
    destruct (Hexpected e eq_refl) as [a_e He].
    destruct (decide (shape a_e = [nrows mm])) as [Se | Se].
    - left. intros e' [= <-]. eauto.
    - right. eauto. }
  destruct Hdec as [Se | Se];
    [| unfold bind at 1; rewrite mem_shapes_rejects by tauto; reflexivity].
  destruct Hbad as [(e & a_e & He & Hl & Hne) | (l & a_p0 & Hl0 & Hl & Hne)].
  { destruct (Se e He) as (a' & Ha' & Hsh). congruence. }
  unfold bind at 1. rewrite mem_shapes_accepts by assumption.
  cbn [fst snd]. unfold bind at 1.
  rewrite (mem_initial_p_rejects l a_p0) by assumption. reflexivity.
Qed.

End Setup.

Section SetupReturns.
Import FcsMem.

Variable uninit1 : nat -> xreal.
Variable uninit2 : nat -> nat -> xreal.

Lemma lookup_snoc_new (hb : heap) (a : ndarray) :
  (hb ++ [a]) !! length hb = Some a.
Proof. apply list_lookup_middle. reflexivity. Qed.

Lemma lookup_snoc_old (hb : heap) (a : ndarray) l :
  (l < length hb)%nat -> (hb ++ [a]) !! l = hb !! l.
Proof. intros Hl. apply lookup_app_l. assumption. Qed.

Lemma shape_vector (a : ndarray) (n : nat) :
  shape a = [n] -> exists v, a = Arr1 v /\ length v = n.
Proof.
  destruct a as [v | m]; cbn [shape]; intros [=]. eauto.
Qed.

(** The copy of [p0] is a new array with the contents of [p0]. *)
Lemma mem_initial_p_returns (hb : heap) (Nmodels : nat) (p0 : option loc) :
  (forall l, p0 = Some l ->
             exists a_p0, hb !! l = Some a_p0 /\ shape a_p0 = [Nmodels]) ->
  exists h' p pv,
    mem_initial_p Nmodels p0 hb = (h', Return p)
    /\ (length hb <= p)%nat
    /\ length h' = S p
    /\ (forall l, (l < length hb)%nat -> h' !! l = hb !! l)
    /\ h' !! p = Some (Arr1 pv)
    /\ length pv = Nmodels
    /\ (forall l, p0 = Some l -> hb !! l = Some (Arr1 pv))
    /\ (p0 = None -> pv = np_ones Nmodels).
Proof.
  intros Hp0. unfold mem_initial_p. destruct p0 as [l |].
  - destruct (Hp0 l eq_refl) as (a_p0 & Hl & Hsh).
    destruct (shape_vector _ _ Hsh) as (pv & -> & Hlen).
    rewrite run_ret, (run_load _ _ _ _ Hl).
    unfold bind. rewrite bool_decide_eq_true_2 by assumption.
    exists (hb ++ [Arr1 pv]), (length hb), pv.
    split; [reflexivity |]. split; [lia |].
    split; [rewrite length_app; cbn [length]; lia |].
    split; [intros; apply lookup_snoc_old; assumption |].
    split; [apply lookup_snoc_new |]. split; [assumption |].
    split; [intros ? [= <-]; assumption | discriminate].
  - rewrite run_alloc, (run_load _ _ _ _ (lookup_snoc_new _ _)).
    unfold bind. rewrite bool_decide_eq_true_2
      by (cbn [shape]; unfold np_ones; rewrite length_replicate; reflexivity).
    exists ((hb ++ [Arr1 (np_ones Nmodels)]) ++ [Arr1 (np_ones Nmodels)]),
      (S (length hb)), (np_ones Nmodels).
    split; [cbv [assert_ ret alloc]; rewrite length_app; cbn [length];
            do 2 f_equal; lia |].
    split; [lia |].
    split; [rewrite !length_app; cbn [length]; lia |].
    split.
    { intros l Hl. rewrite lookup_snoc_old by (rewrite length_app; lia).
      apply lookup_snoc_old. assumption. }
    split.
    { replace (S (length hb)) with (length (hb ++ [Arr1 (np_ones Nmodels)]))
        by (rewrite length_app; cbn [length]; lia).
      apply lookup_snoc_new. }
    split; [unfold np_ones; apply length_replicate |].
    split; [discriminate | reflexivity].
Qed.

(** [H] and [g0] are two new arrays that hold the matrices of the
    specification. *)
Lemma mem_matrices_returns (hb : heap) (mm : matrix) (yv sv : list xreal) :
  length yv = ncols mm -> length sv = ncols mm -> ncols mm <> 0%nat ->
  exists h' Hf gv,
    mem_matrices uninit1 uninit2 mm (Arr1 yv) (Arr1 sv) hb
    = (h', Return (length hb, S (length hb)))
    /\ length h' = S (S (length hb))
    /\ (forall l, (l < length hb)%nat -> h' !! l = hb !! l)
    /\ h' !! length hb = Some (Arr2 (Mat (nrows mm) (nrows mm) Hf))
    /\ h' !! S (length hb) = Some (Arr1 gv)
    /\ (forall m n, (m < nrows mm)%nat -> (n < nrows mm)%nat ->
                    Hf m n = H_spec mm sv m n)
    /\ length gv = nrows mm
    /\ (forall n, (n < nrows mm)%nat -> gv !! n = Some (g0_spec mm yv sv n)).
Proof.
  intros Hy Hs Hpts.
  destruct (assemble_spec mm yv sv Hy Hs Hpts (nrows mm) uninit2
              (np_empty1 uninit1 (nrows mm)))
    as (Hf & gv & Hasm & HH & Hlen & Hg).
  { unfold np_empty1. rewrite length_fmap, length_seq. reflexivity. }
  set (h1 := hb ++ [Arr2 (np_empty2 uninit2 (nrows mm) (nrows mm))]).
  set (h2 := h1 ++ [Arr1 (np_empty1 uninit1 (nrows mm))]).
  assert (L1 : length h1 = S (length hb))
    by (unfold h1; rewrite length_app; cbn [length]; lia).
  assert (L2 : length h2 = S (S (length hb)))
    by (unfold h2; rewrite length_app; cbn [length]; lia).
  assert (E1 : h2 !! length hb = Some (Arr2 (np_empty2 uninit2 (nrows mm) (nrows mm)))).
  { unfold h2. rewrite lookup_snoc_old by lia. apply lookup_snoc_new. }
  assert (E2 : <[length hb := Arr2 (Mat (nrows mm) (nrows mm) Hf)]> h2 !! length h1
               = Some (Arr1 (np_empty1 uninit1 (nrows mm)))).
  { rewrite list_lookup_insert_ne by lia. apply lookup_snoc_new. }
  exists (<[length h1 := Arr1 gv]>
            (<[length hb := Arr2 (Mat (nrows mm) (nrows mm) Hf)]> h2)), Hf, gv.
  split.
  { unfold mem_matrices. rewrite !run_alloc. cbn [as_vector]. rewrite !run_ret.
    rewrite Hasm, run_lift. cbn [fst snd]. fold h1. fold h2.
    rewrite (run_write _ _ _ _ _ E1), (run_write _ _ _ _ _ E2).
    unfold ret. rewrite L1. reflexivity. }
  split; [rewrite !length_insert; assumption |].
  split.
  { intros l Hl. rewrite !list_lookup_insert_ne by lia.
    unfold h2, h1. rewrite !lookup_snoc_old by (rewrite ?length_app; lia).
    reflexivity. }
  split.
  { rewrite list_lookup_insert_ne by lia.
    apply list_lookup_insert_eq. lia. }
  split.
  { rewrite L1. apply list_lookup_insert_eq. rewrite length_insert. lia. }
  auto.
Qed.

(** With matching shapes and at least one sample point the set-up
    returns: [p], [H] and [g0] are three new arrays, allocated in this
    order, and the arrays that were there before are as they were. *)
Lemma mem_setup_returns (h : heap) (y models sigma : loc)
    (p0 expected : option loc) (nu : xreal)
    (mm : matrix) (yv sv : list xreal) :
  h !! models = Some (Arr2 mm) ->
  h !! y = Some (Arr1 yv) ->
  h !! sigma = Some (Arr1 sv) ->
  length yv = ncols mm ->
  length sv = ncols mm ->
  (forall e, expected = Some e ->
             exists a_e, h !! e = Some a_e /\ shape a_e = [nrows mm]) ->
  (forall l, p0 = Some l ->
             exists a_p0, h !! l = Some a_p0 /\ shape a_p0 = [nrows mm]) ->
  ncols mm <> 0%nat ->
  exists h' p pv Hf gv,
    mem_setup uninit1 uninit2 y models sigma p0 expected nu h
    = (h', Return (Fit (nrows mm) (S p) (S (S p)) expected nu, p))
    /\ (length h <= p)%nat
    /\ length h' = S (S (S p))
    /\ (forall l, (l < length h)%nat -> h' !! l = h !! l)
    /\ h' !! p = Some (Arr1 pv)
    /\ length pv = nrows mm
    /\ h' !! S p = Some (Arr2 (Mat (nrows mm) (nrows mm) Hf))
    /\ h' !! S (S p) = Some (Arr1 gv)
    /\ (forall m n, (m < nrows mm)%nat -> (n < nrows mm)%nat ->
                    Hf m n = H_spec mm sv m n)
    /\ length gv = nrows mm
    /\ (forall n, (n < nrows mm)%nat -> gv !! n = Some (g0_spec mm yv sv n)).
Proof.
  intros Hmodels Hy Hsigma Ly Ls Hexp Hp0 Hpts.
  destruct (mem_initial_p_returns h (nrows mm) p0 Hp0)
    as (h1 & p & pv & E1 & Hp & L1 & Hold1 & Hpv & Lpv & _).
  destruct (mem_matrices_returns h1 mm yv sv Ly Ls Hpts)
    as (h2 & Hf & gv & E2 & L2 & Hold2 & HH & Hg & HHf & Lgv & Hgv).
  exists h2, p, pv, Hf, gv.
  split.
  { assert (Sy : shape (Arr1 yv) = [ncols mm]) by (cbn [shape]; congruence).
    assert (Ss : shape (Arr1 sv) = [ncols mm]) by (cbn [shape]; congruence).
    unfold mem_setup. unfold bind at 1.
    rewrite (mem_shapes_accepts h y models sigma expected mm _ _
               Hmodels Hy Hsigma Sy Ss Hexp).
    cbn [fst snd]. unfold bind at 1. rewrite E1.
    unfold bind at 1. rewrite E2. cbn [fst snd]. unfold ret.
    rewrite L1. reflexivity. }
  rewrite L1 in *.
  split; [assumption |].
  split; [lia |].
  split; [intros l Hl; rewrite Hold2 by lia; apply Hold1; assumption |].
  split; [rewrite Hold2 by lia; assumption |].
  auto 10.
Qed.

End SetupReturns.

(** ** The assertions of [mem] *)

Section Preconditions.
Import FcsMem.

Variable uninit1 : nat -> xreal.
Variable uninit2 : nat -> nat -> xreal.
Variable shrager : solver_args -> M loc.

(** C7 (as the code has it).  [mem] fails at once with an
    [AssertionError], before it allocates anything or calls the solver,
    when the shape of [y] or of [sigma] is not [(Npts,)] or the shape of a
    given [expected] or [p0] is not [(Nmodels,)].  These assertions are
    its only checks: with matching shapes and [Npts > 0] the set-up
    completes whatever the values of [sigma] are. *)
Theorem mem_checks_shapes_only
    (h : heap) (y models sigma : loc) (p0 expected : option loc)
    (nu delta_thresh : xreal) (fuel : nat)
    (mm : matrix) (a_y a_sigma : ndarray) :
  h !! models = Some (Arr2 mm) ->
  h !! y = Some a_y ->
  h !! sigma = Some a_sigma ->
  (forall e, expected = Some e -> is_Some (h !! e)) ->
  (forall l, p0 = Some l -> is_Some (h !! l)) ->
  (shape a_y <> [ncols mm]
   \/ shape a_sigma <> [ncols mm]
   \/ (exists e a_e, expected = Some e /\ h !! e = Some a_e
                     /\ shape a_e <> [nrows mm])
   \/ (exists l a_p0, p0 = Some l /\ h !! l = Some a_p0
                      /\ shape a_p0 <> [nrows mm]) ->
   mem uninit1 uninit2 shrager y models sigma p0 expected nu delta_thresh fuel h
   = (h, Raise AssertionError))
  /\ (shape a_y = [ncols mm] ->
      shape a_sigma = [ncols mm] ->
      (forall e, expected = Some e ->
                 exists a_e, h !! e = Some a_e /\ shape a_e = [nrows mm]) ->
      (forall l, p0 = Some l ->
                 exists a_p0, h !! l = Some a_p0 /\ shape a_p0 = [nrows mm]) ->
      ncols mm <> 0%nat ->
      exists h' fp,
        mem_setup uninit1 uninit2 y models sigma p0 expected nu h
        = (h', Return fp)).
Proof.
  intros Hmodels Hy Hsigma Hexp Hp0. split.
  - intros Hbad. unfold mem, bind.
    rewrite (mem_setup_rejects uninit1 uninit2 h y models sigma p0 expected nu
               mm a_y a_sigma Hmodels Hy Hsigma Hexp Hp0 Hbad).
    reflexivity.
  - intros Sy Ss Se Sp Hpts.
    destruct (shape_vector _ _ Sy) as (yv & -> & Ly).
    destruct (shape_vector _ _ Ss) as (sv & -> & Ls).
    destruct (mem_setup_returns uninit1 uninit2 h y models sigma p0 expected nu
                mm yv sv Hmodels Hy Hsigma Ly Ls Se Sp Hpts)
      as (h' & p & pv & Hf & gv & E & _).
    eauto.
Qed.

End Preconditions.

Section PreconditionExamples.
Import FcsMem.

(** A [y] of two points against models of three points is rejected. *)
Lemma mem_checks_shapes_only_witness :
  mem (fun _ => NaN) (fun _ _ => NaN) (fun a => ret (arg_x0 a))
      0 1 2 (Some 4%nat) (Some 3%nat) (Fin 5e-6) (Fin 1e-4) 7
      (scenario_heap [Fin 1; Fin 1] scenario_sigma)
  = (scenario_heap [Fin 1; Fin 1] scenario_sigma, Raise AssertionError).
Proof.
  refine (proj1 (mem_checks_shapes_only _ _ _
                   (scenario_heap [Fin 1; Fin 1] scenario_sigma)
                   0 1 2 (Some 4%nat) (Some 3%nat) _ _ 7
                   scenario_models (Arr1 [Fin 1; Fin 1]) (Arr1 scenario_sigma)
                   _ _ _ _ _) _).
  - reflexivity.
  - reflexivity.
  - reflexivity.
  - intros e [= <-]. eexists. reflexivity.
  - intros l [= <-]. eexists. reflexivity.
  - left. discriminate.
Defined.

(** C7, counterexample.  With the shapes of the scenario and the
    non-positive standard errors [sigma = [-1, 0, -2]] nothing is
    rejected: the set-up completes and [mem] is in its loop. *)
Lemma mem_accepts_nonpositive_sigma :
  (exists h' fp,
     mem_setup (fun _ => NaN) (fun _ _ => NaN)
       0 1 2 (Some 4%nat) (Some 3%nat) (Fin 5e-6)
       (scenario_heap scenario_y [Fin (-1); Fin 0; Fin (-2)])
     = (h', Return fp))
  /\ (exists h',
        mem (fun _ => NaN) (fun _ _ => NaN) (fun a => ret (arg_x0 a))
          0 1 2 (Some 4%nat) (Some 3%nat) (Fin 5e-6) (Fin 1e-4) 0
          (scenario_heap scenario_y [Fin (-1); Fin 0; Fin (-2)])
        = (h', Return None)).
Proof.
  destruct (mem_setup_returns (fun _ => NaN) (fun _ _ => NaN)
              (scenario_heap scenario_y [Fin (-1); Fin 0; Fin (-2)])
              0 1 2 (Some 4%nat) (Some 3%nat) (Fin 5e-6)
              scenario_models scenario_y [Fin (-1); Fin 0; Fin (-2)])
    as (h' & p & pv & Hf & gv & E & _);
    try reflexivity.
  - intros e [= <-]. eexists. split; reflexivity.
  - intros l [= <-]. eexists. split; reflexivity.
  - discriminate.
  - split; [eauto |].
    exists h'. unfold mem, bind. rewrite E. reflexivity.
Qed.

End PreconditionExamples.

(** ** The loop of [mem] never ends by itself *)

Section NoReturn.
Import FcsMem.

Variable uninit1 : nat -> xreal.
Variable uninit2 : nat -> nat -> xreal.
Variable shrager : solver_args -> M loc.

Lemma mem_loop_never_returns (fuel : nat) (f : fit) (p : loc) (h : heap) (l : loc) :
  (mem_loop shrager fuel f p h).2 <> Return (Some l).
Proof.
  revert p h. induction fuel as [| fuel IH]; intros p h; [discriminate |].
  cbn [mem_loop]. unfold bind.
  destruct (mem_iter shrager f p h) as [h' [pNew | e]]; [apply IH | discriminate].
Qed.

Lemma mem_never_returns (y models sigma : loc) (p0 expected : option loc)
    (nu delta_thresh : xreal) (fuel : nat) (h : heap) (l : loc) :
  (mem uninit1 uninit2 shrager y models sigma p0 expected nu delta_thresh fuel h).2
  <> Return (Some l).
Proof.
  unfold mem, bind.
  destruct (mem_setup uninit1 uninit2 y models sigma p0 expected nu h)
    as [h' [fp | e]]; [apply mem_loop_never_returns | discriminate].
Qed.

End NoReturn.


(** ** The matrix [H] *)

Section Symmetry.
Import FcsMem.

Lemma xmul_comm (x y : xreal) : (x * y)%X = (y * x)%X.
Proof.
  destruct x as [a | | |], y as [b | | |]; cbn [xmul]; try reflexivity.
  f_equal. apply Rmult_comm.
Qed.

(** [H[m,n]] and [H[n,m]] are the same operations applied to the
    products [models[m,i] * models[n,i]] and [models[n,i] * models[m,i]]. *)
Lemma H_spec_symmetric (mm : matrix) (sv : list xreal) (m n : nat) :
  H_spec mm sv m n = H_spec mm sv n m.
Proof.
  unfold H_spec, xsum_upto. do 2 f_equal.
  apply list_fmap_ext. intros _ i _.
  rewrite (xmul_comm (entry mm m i)). reflexivity.
Qed.

End Symmetry.

Section SymmetryBinary64.
Import PrimFloat FloatOps SpecFloat FloatAxioms Binary64.

Lemma SFmul_comm (prec emax : Z) (x y : spec_float) :
  SFmul prec emax x y = SFmul prec emax y x.
Proof.
  destruct x as [sx | sx | | sx mx ex], y as [sy | sy | | sy my ey];
    cbn [SFmul]; rewrite ?(xorb_comm sx sy); try reflexivity.
  rewrite (Pos.mul_comm mx my), (Z.add_comm ex ey). reflexivity.
Qed.

(** The product of two binary64 numbers does not depend on their order. *)
Lemma mul_comm (x y : float) : (x * y)%float = (y * x)%float.
Proof.
  apply Prim2SF_inj. rewrite !mul_spec. apply SFmul_comm.
Qed.

Lemma zip_with_mul_comm (a b : list float) :
  zip_with mul a b = zip_with mul b a.
Proof.
  revert b. induction a as [| x a IH]; intros [| y b]; cbn [zip_with];
    try reflexivity.
  rewrite (mul_comm x y), IH. reflexivity.
Qed.

Lemma H_entry_symmetric (models : list (list float)) (Npts : nat)
    (sigma : list float) (m n : nat) :
  H_entry models Npts sigma m n = H_entry models Npts sigma n m.
Proof.
  unfold H_entry, weighted_sum.
  rewrite (zip_with_mul_comm (row models m)). reflexivity.
Qed.

Lemma each_lookup {A B} (f : A -> outcome B) (l : list A) (bs : list B) :
  each f l = Return bs ->
  length bs = length l
  /\ forall i a, l !! i = Some a -> exists b, bs !! i = Some b /\ f a = Return b.
Proof.
  revert bs. induction l as [| a l IH]; intros bs; cbn [each].
  - intros [= <-]. split; [reflexivity |]. intros i a [=].
  - destruct (f a) as [b | e] eqn:Ea; cbn [obind]; [| discriminate].
    destruct (each f l) as [bs' | e]; cbn [obind]; [| discriminate].
    intros [= <-]. destruct (IH bs' eq_refl) as [Hlen Hl].
    split; [cbn [length]; congruence |].
    intros [| i] a'; cbn.
    + intros [= <-]. eauto.
    + apply Hl.
Qed.

(** The entry of row [m] and column [n] of a list of rows. *)
Lemma mem_H_lookup (models : list (list float)) (Npts : nat)
    (sigma : list float) (H : list (list float)) (m n : nat) :
  mem_H models Npts sigma = Return H ->
  (m < length models)%nat -> (n < length models)%nat ->
  exists x, H_entry models Npts sigma m n = Return x
            /\ (H !! m) ≫= (.!! n) = Some x.
Proof.
  unfold mem_H. intros E Hm Hn.
  destruct (each_lookup _ _ _ E) as [_ Hrows].
  destruct (Hrows m m) as (r & Hr & Er); [apply lookup_seq_lt; assumption |].
  destruct (each_lookup _ _ _ Er) as [_ Hcols].
  destruct (Hcols n n) as (x & Hx & Ex); [apply lookup_seq_lt; assumption |].
  exists x. split; [assumption |]. rewrite Hr. exact Hx.
Qed.

End SymmetryBinary64.

Section FitMatrix.
Import FcsMem.

Variable uninit1 : nat -> xreal.
Variable uninit2 : nat -> nat -> xreal.

(** C8 (as the code has it).  The matrix [H] that [mem] computes is
    symmetric, for every [models] and every [sigma], whatever the values
    in them: [H[m,n]] and [H[n,m]] are the results of the same operations
    on the products [models[m,i] * models[n,i]] and
    [models[n,i] * models[m,i]], which are the same numbers (both are NaN
    when one is).  This holds of the matrix that the set-up of [mem]
    leaves on the heap, and of the matrix computed in binary64
    arithmetic, where products are rounded. *)
Theorem mem_H_symmetric
    (h : heap) (y models sigma : loc) (p0 expected : option loc) (nu : xreal)
    (mm : matrix) (yv sv : list xreal) :
  h !! models = Some (Arr2 mm) ->
  h !! y = Some (Arr1 yv) ->
  h !! sigma = Some (Arr1 sv) ->
  length yv = ncols mm ->
  length sv = ncols mm ->
  (forall e, expected = Some e ->
             exists a_e, h !! e = Some a_e /\ shape a_e = [nrows mm]) ->
  (forall l, p0 = Some l ->
             exists a_p0, h !! l = Some a_p0 /\ shape a_p0 = [nrows mm]) ->
  ncols mm <> 0%nat ->
  (exists h' f p Hm,
     mem_setup uninit1 uninit2 y models sigma p0 expected nu h
     = (h', Return (f, p))
     /\ h' !! fit_H f = Some (Arr2 Hm)
     /\ nrows Hm = nrows mm /\ ncols Hm = nrows mm
     /\ forall m n, (m < nrows mm)%nat -> (n < nrows mm)%nat ->
                    entry Hm m n = entry Hm n m)
  /\ (forall (fmodels : list (list PrimFloat.float)) (Npts : nat)
             (fsigma : list PrimFloat.float) (fH : list (list PrimFloat.float)),
        Binary64.mem_H fmodels Npts fsigma = Return fH ->
        forall m n, (m < length fmodels)%nat -> (n < length fmodels)%nat ->
                    exists x, (fH !! m) ≫= (.!! n) = Some x
                              /\ (fH !! n) ≫= (.!! m) = Some x).
Proof.
  intros Hmodels Hy Hsigma Ly Ls Se Sp Hpts. split.
  - destruct (mem_setup_returns uninit1 uninit2 h y models sigma p0 expected nu
                mm yv sv Hmodels Hy Hsigma Ly Ls Se Sp Hpts)
      as (h' & p & pv & Hf & gv & E & _ & _ & _ & _ & _ & HH & _ & HHf & _).
    exists h', (Fit (nrows mm) (S p) (S (S p)) expected nu), p,
      (Mat (nrows mm) (nrows mm) Hf).
    split; [assumption |]. split; [assumption |].
    split; [reflexivity |]. split; [reflexivity |].
    intros m n Hm Hn. cbn [entry].
    rewrite (HHf m n), (HHf n m) by assumption.
    apply H_spec_symmetric.
  - intros fmodels Npts fsigma fH E m n Hm Hn.
    destruct (mem_H_lookup _ _ _ _ m n E Hm Hn) as (x & Ex & Hx).
    destruct (mem_H_lookup _ _ _ _ n m E Hn Hm) as (x' & Ex' & Hx').
    rewrite H_entry_symmetric in Ex'.
    exists x. split; [assumption |]. congruence.
Qed.

End FitMatrix.

Section FitMatrixExample.
Import FcsMem.

Lemma mem_H_symmetric_witness :
  exists h' f p Hm,
    mem_setup (fun _ => NaN) (fun _ _ => NaN)
      0 1 2 (Some 4%nat) (Some 3%nat) (Fin 5e-6)
      (scenario_heap scenario_y scenario_sigma)
    = (h', Return (f, p))
    /\ h' !! fit_H f = Some (Arr2 Hm)
    /\ nrows Hm = 2%nat /\ ncols Hm = 2%nat
    /\ entry Hm 0 1 = entry Hm 1 0.
Proof.
  destruct (mem_H_symmetric (fun _ => NaN) (fun _ _ => NaN)
              (scenario_heap scenario_y scenario_sigma)
              0 1 2 (Some 4%nat) (Some 3%nat) (Fin 5e-6)
              scenario_models scenario_y scenario_sigma)
    as [(h' & f & p & Hm & E & HH & Hr & Hc & Hsym) _]; try reflexivity.
  - intros e [= <-]. eexists. split; reflexivity.
  - intros l [= <-]. eexists. split; reflexivity.
  - discriminate.
  - exists h', f, p, Hm. repeat split; try assumption.
    apply Hsym; cbn; lia.
Defined.

End FitMatrixExample.

Section FitMatrixRounding.
Import PrimFloat QArith Binary64.
#[local] Open Scope float_scope.
#[local] Set Warnings "-inexact-float".

(** C8, counterexample.  With the models [[0.3], [0.7]] and the standard
    error [1.0], which is not zero, binary64 arithmetic gives
    [H = [[0.18, 0.42], [0.42, 0.9799999999999999]]]: the rounded
    product [0.7 * 0.7] is one unit in the last place below the binary64
    number [0.49].  This matrix is not positive semi-definite: for
    [x = (7, -3)] the value of [x^T H x], computed without rounding from
    the four numbers, is negative. *)
Lemma mem_H_binary64_not_psd :
  forallb (fun s => negb (s =? 0)) unit_sigma = true
  /\ mem_H tilted_models 1 unit_sigma
     = Return [[0.18; 0.42]; [0.42; 0.9799999999999999]]
  /\ exists Hq,
       exact_matrix [[0.18; 0.42]; [0.42; 0.9799999999999999]] = Some Hq
       /\ (quad_form Hq [7 # 1; -3 # 1] < 0)%Q.
Proof.
  split; [vm_compute; reflexivity |].
  split; [vm_compute; reflexivity |].
  eexists. split; vm_compute; reflexivity.
Qed.

End FitMatrixRounding.

(** ** Which arrays [mem] writes *)

Section Frames.
Import FcsMem.

Lemma preserves_refl P h : preserves P h h.
Proof. split; [lia | reflexivity]. Qed.

Lemma triple_ret {A} I (a : A) (Q : A -> Prop) : Q a -> triple I (ret a) Q.
Proof. intros HQ h HI. split; [assumption |]. intros a' [= <-]. assumption. Qed.

Lemma triple_ret_any {A} I (a : A) : triple I (ret a) (fun _ => True).
Proof. apply triple_ret. trivial. Qed.

Lemma triple_raise {A} I e (Q : A -> Prop) : triple I (raise e) Q.
Proof. intros h HI. split; [assumption | discriminate]. Qed.

Lemma triple_lift {A} I (o : outcome A) : triple I (lift o) (fun _ => True).
Proof. intros h HI. split; [assumption | trivial]. Qed.

Lemma triple_bind {A B} I (m : M A) (k : A -> M B) (Q1 : A -> Prop)
    (Q2 : B -> Prop) :
  triple I m Q1 -> (forall a, Q1 a -> triple I (k a) Q2) ->
  triple I (bind m k) Q2.
Proof.
  intros Hm Hk h HI. destruct (Hm h HI) as [HI1 HQ1]. unfold bind.
  destruct (m h) as [h1 [a | e]]; cbn [fst snd] in *.
  - apply Hk; [apply HQ1; reflexivity | assumption].
  - split; [assumption | discriminate].
Qed.

Lemma triple_weaken {A} I (m : M A) (Q Q' : A -> Prop) :
  (forall a, Q a -> Q' a) -> triple I m Q -> triple I m Q'.
Proof.
  intros HQ Hm h HI. destruct (Hm h HI) as [HI1 HQ1].
  split; [assumption |]. intros a Ha. apply HQ, HQ1. assumption.
Qed.

Lemma triple_load I l : triple I (load l) (fun _ => True).
Proof.
  intros h HI. unfold load.
  destruct (h !! l); (split; [assumption | trivial]).
Qed.

Lemma triple_as_vector I a : triple I (as_vector a) (fun _ => True).
Proof. destruct a; [apply triple_ret; trivial | apply triple_raise]. Qed.

Lemma triple_as_matrix I a : triple I (as_matrix a) (fun _ => True).
Proof. destruct a; [apply triple_raise | apply triple_ret; trivial]. Qed.

Lemma triple_load1 I l : triple I (load1 l) (fun _ => True).
Proof.
  eapply triple_bind; [apply triple_load |].
  intros a _. apply triple_as_vector.
Qed.

Lemma triple_load2 I l : triple I (load2 l) (fun _ => True).
Proof.
  eapply triple_bind; [apply triple_load |].
  intros a _. apply triple_as_matrix.
Qed.

Lemma triple_assert I b : triple I (assert_ b) (fun _ => True).
Proof. destruct b; [apply triple_ret; trivial | apply triple_raise]. Qed.

Lemma triple_for_each {A} I (l : list A) (body : A -> M unit) :
  (forall a, triple I (body a) (fun _ => True)) ->
  triple I (for_each l body) (fun _ => True).
Proof.
  intros Hbody. induction l as [| a l IH]; [apply triple_ret; trivial |].
  cbn [for_each]. eapply triple_bind; [apply Hbody |]. intros _ _. apply IH.
Qed.

Lemma triple_collect {A B} I (l : list A) (body : A -> M B) :
  (forall a, triple I (body a) (fun _ => True)) ->
  triple I (collect l body) (fun _ => True).
Proof.
  intros Hbody. induction l as [| a l IH]; [apply triple_ret; trivial |].
  cbn [collect]. eapply triple_bind; [apply Hbody |]. intros b _.
  eapply triple_bind; [apply IH |]. intros bs _. apply triple_ret. trivial.
Qed.

(** The invariant: the protected arrays of the heap [h0] are as in [h0]. *)
Variable P : loc -> Prop.
Variable h0 : heap.

Lemma triple_alloc a : triple (preserves P h0) (alloc a) (outside P h0).
Proof.
  intros h [L H]. unfold alloc. cbn [fst snd]. split.
  - split; [rewrite length_app; lia |].
    intros l Hl HP. rewrite lookup_app_l by lia. apply H; assumption.
  - intros l [= <-] [Hl _]. lia.
Qed.

Lemma triple_write l a :
  outside P h0 l -> triple (preserves P h0) (write l a) (fun _ => True).
Proof.
  intros Hout h [L H]. unfold write.
  destruct (h !! l) eqn:E; cbn [fst snd]; (split; [| trivial]).
  - split; [rewrite length_insert; assumption |].
    intros l' Hl' HP. rewrite list_lookup_insert_ne; [apply H; assumption |].
    intros ->. apply Hout. split; assumption.
  - split; assumption.
Qed.

Lemma triple_setitem1 l i x :
  outside P h0 l -> triple (preserves P h0) (setitem1 l i x) (fun _ => True).
Proof.
  intros Hout. unfold setitem1.
  eapply triple_bind; [apply triple_load1 |]. intros v _.
  destruct (decide (i < length v)%nat);
    [apply triple_write; assumption | apply triple_raise].
Qed.

Lemma triple_q_eval f delta p :
  triple (preserves P h0) (q_eval f delta p) (fun _ => True).
Proof.
  unfold q_eval.
  eapply triple_bind; [apply triple_load1 |]. intros g0v _.
  eapply triple_bind; [apply triple_load1 |]. intros pv _.
  eapply triple_bind; [apply triple_lift |]. intros a _.
  eapply triple_bind; [apply triple_load2 |]. intros Hm _.
  eapply triple_bind; [apply triple_load2 |]. intros dm _.
  eapply triple_bind; [apply triple_lift |]. intros Qm _.
  eapply triple_bind; [apply triple_lift |]. intros Qp _.
  eapply triple_bind; [apply triple_lift |]. intros b _.
  apply triple_ret. trivial.
Qed.

(** The plotting block writes into [p] only. *)
Lemma triple_plot_block f delta p :
  outside P h0 p ->
  triple (preserves P h0) (plot_block f delta p) (fun _ => True).
Proof.
  intros Hout. unfold plot_block.
  eapply triple_bind.
  - apply triple_for_each. intros i.
    eapply triple_bind.
    + apply triple_collect. intros x.
      eapply triple_bind; [apply triple_setitem1; assumption |].
      intros _ _. apply triple_q_eval.
    + intros ys _. apply triple_ret. trivial.
  - intros _ _. apply triple_ret. trivial.
Qed.

(** A turn of the loop, up to the call of the solver, writes into [p]
    only; the solver is given [g0], [p] and three new arrays. *)
Lemma triple_mem_iter_args f p :
  outside P h0 p ->
  triple (preserves P h0) (mem_iter_args f p)
    (fun a => arg_x0 a = p /\ arg_g a = fit_g0 f
              /\ outside P h0 (arg_Q a) /\ outside P h0 (arg_C a)
              /\ outside P h0 (arg_d a)).
Proof.
  intros Hout. unfold mem_iter_args.
  eapply triple_bind; [apply triple_load1 |]. intros pv _.
  eapply triple_bind.
  { destruct (fit_expected f) as [e |].
    - eapply triple_bind; [apply triple_load1 |]. intros ev _.
      apply triple_lift.
    - apply triple_ret. exact I. }
  intros ratio _.
  eapply triple_bind; [apply triple_lift |]. intros dg _.
  eapply triple_bind; [apply triple_alloc |]. intros delta Hdelta.
  eapply triple_bind; [apply triple_plot_block; assumption |]. intros _ _.
  eapply triple_bind; [apply triple_load2 |]. intros Hm _.
  eapply triple_bind; [apply triple_load2 |]. intros dm _.
  eapply triple_bind; [apply triple_lift |]. intros Qm _.
  eapply triple_bind; [apply triple_alloc |]. intros Q HQ.
  eapply triple_bind; [apply triple_alloc |]. intros C HC.
  eapply triple_bind; [apply triple_alloc |]. intros d Hd.
  apply triple_ret. auto.
Qed.

Section Loop.

Variable shrager : solver_args -> M loc.
Variable f : fit.

(** What the loop needs from the solver, for the calls that [mem] makes. *)
Hypothesis Hsolver :
  forall a,
    outside P h0 (arg_x0 a) -> arg_g a = fit_g0 f ->
    outside P h0 (arg_Q a) -> outside P h0 (arg_C a) -> outside P h0 (arg_d a) ->
    triple (preserves P h0) (shrager a) (outside P h0).

Lemma triple_mem_iter p :
  outside P h0 p ->
  triple (preserves P h0) (mem_iter shrager f p) (outside P h0).
Proof.
  intros Hout. unfold mem_iter.
  eapply triple_bind; [apply triple_mem_iter_args; assumption |].
  intros a (Hx & Hg & HQ & HC & Hd). apply Hsolver; congruence.
Qed.

Lemma triple_mem_loop fuel p :
  outside P h0 p ->
  triple (preserves P h0) (mem_loop shrager fuel f p) (fun _ => True).
Proof.
  revert p. induction fuel as [| fuel IH]; intros p Hout.
  - apply triple_ret. trivial.
  - cbn [mem_loop].
    eapply triple_bind; [apply triple_mem_iter; assumption |].
    intros pNew HpNew. apply IH. assumption.
Qed.

End Loop.

(** A solver that keeps to its own arrays keeps the invariant when all
    its arguments are outside of the protected arrays. *)
Lemma solver_frame_triple (shrager : solver_args -> M loc) (a : solver_args) :
  solver_frame shrager ->
  (forall l, l ∈ arg_locs a -> outside P h0 l) ->
  triple (preserves P h0) (shrager a) (outside P h0).
Proof.
  intros Hfr Hargs h [L H]. destruct (Hfr a h) as [[L' H'] Hres]. split.
  - split; [lia |]. intros l Hl HP.
    rewrite H' by (lia || (intros Hin; apply (Hargs l Hin); auto)).
    apply H; assumption.
  - intros pNew HpNew. destruct (Hres pNew HpNew) as [Hin | Hge].
    + apply Hargs. assumption.
    + intros [Hl _]. lia.
Qed.

Lemma solver_pure_triple (shrager : solver_args -> M loc) (a : solver_args) :
  solver_pure shrager ->
  triple (preserves P h0) (shrager a) (outside P h0).
Proof.
  intros Hpure h [L H]. destruct (Hpure a h) as [[L' H'] Hres]. split.
  - split; [lia |]. intros l Hl HP.
    rewrite H' by (lia || exact I). apply H; assumption.
  - intros pNew HpNew [Hl _]. specialize (Hres pNew HpNew). lia.
Qed.

(** The set-up writes into the arrays it allocates only. *)
Lemma triple_mem_setup uninit1 uninit2 y models sigma p0 expected nu :
  triple (preserves P h0)
    (mem_setup uninit1 uninit2 y models sigma p0 expected nu)
    (fun fp => outside P h0 (snd fp) /\ outside P h0 (fit_g0 (fst fp))
               /\ outside P h0 (fit_H (fst fp))).
Proof.
  unfold mem_setup.
  eapply triple_bind.
  { unfold mem_shapes.
    eapply triple_bind; [apply triple_load |]. intros a_models _.
    eapply triple_bind; [apply triple_as_matrix |]. intros mm _.
    eapply triple_bind; [apply triple_load |]. intros a_y _.
    eapply triple_bind; [apply triple_assert |]. intros _ _.
    eapply triple_bind; [apply triple_load |]. intros a_sigma _.
    eapply triple_bind; [apply triple_assert |]. intros _ _.
    eapply triple_bind.
    { destruct expected as [e |].
      - eapply triple_bind; [apply triple_load |]. intros a_e _.
        apply triple_assert.
      - apply triple_ret_any. }
    intros _ _. apply triple_ret_any. }
  intros s _.
  eapply triple_bind.
  { unfold mem_initial_p.
    eapply triple_bind.
    { destruct p0 as [l |].
      - apply triple_ret_any.
      - eapply triple_weaken; [| apply triple_alloc]. trivial. }
    intros l0 _.
    eapply triple_bind; [apply triple_load |]. intros a_p0 _.
    eapply triple_bind; [apply triple_assert |]. intros _ _.
    apply triple_alloc. }
  intros p Hp.
  eapply triple_bind.
  { unfold mem_matrices.
    eapply triple_bind; [apply triple_alloc |]. intros H HH.
    eapply triple_bind; [apply triple_alloc |]. intros g0 Hg0.
    eapply triple_bind; [apply triple_as_vector |]. intros yv _.
    eapply triple_bind; [apply triple_as_vector |]. intros sv _.
    eapply triple_bind; [apply triple_lift |]. intros Hg _.
    eapply triple_bind; [apply triple_write; assumption |]. intros _ _.
    eapply triple_bind; [apply triple_write; assumption |]. intros _ _.
    apply (triple_ret _ (H, g0)
             (fun Hg => outside P h0 (fst Hg) /\ outside P h0 (snd Hg))).
    split; assumption. }
  intros Hg [HH Hg0]. apply triple_ret. cbn [fst snd fit_g0 fit_H]. auto.
Qed.

End Frames.

(** ** [mem] and its arguments *)

Section Inputs.
Import FcsMem.

Variable uninit1 : nat -> xreal.
Variable uninit2 : nat -> nat -> xreal.
Variable shrager : solver_args -> M loc.

(** C10.  Provided the solver writes only into the arrays it is given
    and into its own, a call of [mem] leaves every array that existed
    before the call as it was, in particular [y], [models], [sigma],
    [expected] and [p0], whether the call has raised or is still in its
    loop; the vector [p] that the loop works on is a new array. *)
Theorem mem_leaves_inputs_unchanged :
  solver_frame shrager ->
  forall (y models sigma : loc) (p0 expected : option loc)
         (nu delta_thresh : xreal) (fuel : nat) (h : heap),
    (forall l, (l < length h)%nat ->
       (mem uninit1 uninit2 shrager y models sigma p0 expected nu
            delta_thresh fuel h).1 !! l = h !! l)
    /\ (forall h1 f p,
          mem_setup uninit1 uninit2 y models sigma p0 expected nu h
          = (h1, Return (f, p)) ->
          (length h <= p)%nat).
Proof.
  intros Hfr y models sigma p0 expected nu delta_thresh fuel h.
  pose proof (triple_mem_setup (fun _ => True) h uninit1 uninit2
                y models sigma p0 expected nu) as Hsetup.
  split.
  - assert (Hmem : triple (preserves (fun _ => True) h)
                     (mem uninit1 uninit2 shrager y models sigma p0 expected
                          nu delta_thresh fuel) (fun _ => True)).
    { unfold mem. eapply triple_bind; [exact Hsetup |].
      intros [f p] (Hp & Hg0 & HH). cbn [fst snd] in *.
      apply triple_mem_loop; [| assumption].
      intros a Hx Hg HQ HC Hd.
      apply solver_frame_triple; [assumption |].
      intros l Hl. unfold arg_locs in Hl.
      repeat (apply elem_of_cons in Hl as [-> | Hl]); try assumption;
        [congruence | inversion Hl]. }
    destruct (Hmem h (preserves_refl _ h)) as [[_ Hkeep] _].
    intros l Hl. apply Hkeep; [assumption | exact I].
  - intros h1 f p E.
    destruct (Hsetup h (preserves_refl _ h)) as [_ Hres].
    rewrite E in Hres. destruct (Hres (f, p) eq_refl) as [Hp _].
    cbn [snd] in Hp. unfold outside in Hp.
    destruct (decide (p < length h)%nat); [exfalso; auto | lia].
Qed.

End Inputs.

Section InputsExample.
Import FcsMem.

Lemma solver_in_place_frame : solver_frame solver_in_place.
Proof.
  intros a h.
  assert (Hout : outside (fun l => l ∉ arg_locs a) h (arg_x0 a)).
  { intros [_ Hnot]. apply Hnot. unfold arg_locs. rewrite !elem_of_cons. tauto. }
  assert (Ht : triple (preserves (fun l => l ∉ arg_locs a) h)
                 (solver_in_place a) (fun pNew => pNew = arg_x0 a)).
  { unfold solver_in_place.
    eapply triple_bind; [apply triple_setitem1; assumption |].
    intros _ _. apply triple_ret. reflexivity. }
  destruct (Ht h (preserves_refl _ h)) as [Hkeep Hres].
  split; [assumption |].
  intros pNew HpNew. left. rewrite (Hres pNew HpNew).
  unfold arg_locs. rewrite !elem_of_cons. tauto.
Qed.

(** After three turns with the solver that overwrites [x0], [p0] still is
    [[1, 1]]. *)
Lemma mem_leaves_inputs_unchanged_witness :
  (mem (fun _ => NaN) (fun _ _ => NaN) solver_in_place
       0 1 2 (Some 4%nat) (Some 3%nat) (Fin 5e-6) (Fin 1e-4) 3
       (scenario_heap scenario_y scenario_sigma)).1 !! 4%nat
  = Some (Arr1 [Fin 1; Fin 1]).
Proof.
  refine (proj1 (mem_leaves_inputs_unchanged (fun _ => NaN) (fun _ _ => NaN)
                   solver_in_place solver_in_place_frame
                   0 1 2 (Some 4%nat) (Some 3%nat) (Fin 5e-6) (Fin 1e-4) 3
                   (scenario_heap scenario_y scenario_sigma)) 4%nat _).
  simpl. lia.
Defined.

End InputsExample.

(** ** [H] and [g0] are set up once *)

Section FitMatricesOnce.
Import FcsMem.

Variable uninit1 : nat -> xreal.
Variable uninit2 : nat -> nat -> xreal.
Variable shrager : solver_args -> M loc.

(** C5.  Before the first turn of the loop the set-up stores
    [H[m,n] = (2/Npts) sum_i models[m,i] models[n,i] / sigma[i]^2] and
    [g0[n] = (2/Npts) sum_i models[n,i] y[i] / sigma[i]^2] in two new
    arrays, and with a solver that leaves the arrays it is given as they
    are the two arrays hold the same contents after any number of turns:
    the loop does not compute them again. *)
Theorem mem_fit_matrices_once
    (h : heap) (y models sigma : loc) (p0 expected : option loc) (nu : xreal)
    (mm : matrix) (yv sv : list xreal) :
  solver_pure shrager ->
  h !! models = Some (Arr2 mm) ->
  h !! y = Some (Arr1 yv) ->
  h !! sigma = Some (Arr1 sv) ->
  length yv = ncols mm ->
  length sv = ncols mm ->
  (forall e, expected = Some e ->
             exists a_e, h !! e = Some a_e /\ shape a_e = [nrows mm]) ->
  (forall l, p0 = Some l ->
             exists a_p0, h !! l = Some a_p0 /\ shape a_p0 = [nrows mm]) ->
  ncols mm <> 0%nat ->
  exists h1 f p Hf gv,
    mem_setup uninit1 uninit2 y models sigma p0 expected nu h
    = (h1, Return (f, p))
    /\ h1 !! fit_H f = Some (Arr2 (Mat (nrows mm) (nrows mm) Hf))
    /\ (forall m n, (m < nrows mm)%nat -> (n < nrows mm)%nat ->
                    Hf m n = H_spec mm sv m n)
    /\ h1 !! fit_g0 f = Some (Arr1 gv)
    /\ length gv = nrows mm
    /\ (forall n, (n < nrows mm)%nat -> gv !! n = Some (g0_spec mm yv sv n))
    /\ forall fuel,
         (mem_loop shrager fuel f p h1).1 !! fit_H f = h1 !! fit_H f
         /\ (mem_loop shrager fuel f p h1).1 !! fit_g0 f = h1 !! fit_g0 f.
Proof.
  intros Hpure Hmodels Hy Hsigma Ly Ls Se Sp Hpts.
  destruct (mem_setup_returns uninit1 uninit2 h y models sigma p0 expected nu
              mm yv sv Hmodels Hy Hsigma Ly Ls Se Sp Hpts)
    as (h1 & p & pv & Hf & gv & E & Hp & L1 & _ & _ & _ & HH & Hg & HHf & Lgv & Hgv).
  exists h1, (Fit (nrows mm) (S p) (S (S p)) expected nu), p, Hf, gv.
  cbn [fit_H fit_g0].
  repeat (split; [assumption |]).
  intros fuel.
  set (P := fun l : nat => l = S p \/ l = S (S p)).
  assert (Hloop : triple (preserves P h1)
                    (mem_loop shrager fuel
                       (Fit (nrows mm) (S p) (S (S p)) expected nu) p)
                    (fun _ => True)).
  { apply triple_mem_loop.
    - intros a _ _ _ _ _. apply solver_pure_triple. assumption.
    - intros [_ [Hl | Hl]]; lia. }
  destruct (Hloop h1 (preserves_refl _ h1)) as [[_ Hkeep] _].
  split; apply Hkeep; unfold P; (lia || auto).
Qed.

End FitMatricesOnce.

Section FitMatricesOnceExample.
Import FcsMem.

Lemma solver_copy_pure : solver_pure solver_copy.
Proof.
  intros a h. unfold solver_copy, bind, load.
  destruct (h !! arg_x0 a) as [x |]; cbn [fst snd alloc].
  - split.
    + split; [rewrite length_app; lia |].
      intros l Hl _. apply lookup_app_l. assumption.
    + intros pNew [= <-]. lia.
  - split; [apply preserves_refl | discriminate].
Qed.

Lemma mem_fit_matrices_once_witness :
  exists h1 f p Hf gv,
    mem_setup (fun _ => NaN) (fun _ _ => NaN)
      0 1 2 (Some 4%nat) (Some 3%nat) (Fin 5e-6)
      (scenario_heap scenario_y scenario_sigma)
    = (h1, Return (f, p))
    /\ h1 !! fit_H f = Some (Arr2 (Mat 2 2 Hf))
    /\ (forall m n, (m < 2)%nat -> (n < 2)%nat ->
                    Hf m n = H_spec scenario_models scenario_sigma m n)
    /\ h1 !! fit_g0 f = Some (Arr1 gv)
    /\ length gv = 2%nat
    /\ (forall n, (n < 2)%nat ->
                  gv !! n = Some (g0_spec scenario_models scenario_y
                                          scenario_sigma n))
    /\ forall fuel,
         (mem_loop solver_copy fuel f p h1).1 !! fit_H f = h1 !! fit_H f
         /\ (mem_loop solver_copy fuel f p h1).1 !! fit_g0 f = h1 !! fit_g0 f.
Proof.
  apply (mem_fit_matrices_once (fun _ => NaN) (fun _ _ => NaN) solver_copy
           (scenario_heap scenario_y scenario_sigma)
           0 1 2 (Some 4%nat) (Some 3%nat) (Fin 5e-6)
           scenario_models scenario_y scenario_sigma solver_copy_pure);
    try reflexivity.
  - intros e [= <-]. eexists. split; reflexivity.
  - intros l [= <-]. eexists. split; reflexivity.
  - discriminate.
Defined.

End FitMatricesOnceExample.

(** ** The loop keeps running *)

Section Progress.
Import FcsMem.

Lemma returns_bind {A B} Pre (m : M A) (k : A -> M B) Mid Post :
  returns Pre m Mid -> (forall a, returns (Mid a) (k a) Post) ->
  returns Pre (bind m k) Post.
Proof.
  intros Hm Hk h HPre. destruct (Hm h HPre) as (a & h1 & E & HMid).
  destruct (Hk a h1 HMid) as (b & h2 & E2 & HPost).
  exists b, h2. unfold bind. rewrite E. auto.
Qed.

Lemma returns_read_bind {A B} Pre (m : M A) (k : A -> M B) Q Post :
  reads Pre m Q -> (forall a, Q a -> returns Pre (k a) Post) ->
  returns Pre (bind m k) Post.
Proof.
  intros Hm Hk h HPre. destruct (Hm h HPre) as (a & E & HQ).
  destruct (Hk a HQ h HPre) as (b & h2 & E2 & HPost).
  exists b, h2. unfold bind. rewrite E. auto.
Qed.

Lemma reads_bind {A B} Pre (m : M A) (k : A -> M B) Q1 Q2 :
  reads Pre m Q1 -> (forall a, Q1 a -> reads Pre (k a) Q2) ->
  reads Pre (bind m k) Q2.
Proof.
  intros Hm Hk h HPre. destruct (Hm h HPre) as (a & E & HQ).
  destruct (Hk a HQ h HPre) as (b & E2 & HQ2).
  exists b. unfold bind. rewrite E. auto.
Qed.

Lemma reads_ret {A} Pre (a : A) (Q : A -> Prop) : Q a -> reads Pre (ret a) Q.
Proof. intros HQ h _. exists a. auto. Qed.

Lemma reads_lift {A} Pre (o : outcome A) (a : A) (Q : A -> Prop) :
  o = Return a -> Q a -> reads Pre (lift o) Q.
Proof. intros -> HQ h _. exists a. auto. Qed.

Lemma reads_load1 Pre l (Q : list xreal -> Prop) :
  (forall h, Pre h -> exists v, h !! l = Some (Arr1 v) /\ Q v) ->
  reads Pre (load1 l) Q.
Proof.
  intros H h HPre. destruct (H h HPre) as (v & E & HQ).
  exists v. unfold load1, bind, load. rewrite E. auto.
Qed.

Lemma reads_load2 Pre l (Q : matrix -> Prop) :
  (forall h, Pre h -> exists m, h !! l = Some (Arr2 m) /\ Q m) ->
  reads Pre (load2 l) Q.
Proof.
  intros H h HPre. destruct (H h HPre) as (m & E & HQ).
  exists m. unfold load2, bind, load. rewrite E. auto.
Qed.

Lemma returns_ret {A} (Pre : heap -> Prop) (a : A) (Post : A -> heap -> Prop) :
  (forall h, Pre h -> Post a h) -> returns Pre (ret a) Post.
Proof. intros H h HPre. exists a, h. auto. Qed.

Lemma returns_alloc (Pre : heap -> Prop) a (Post : loc -> heap -> Prop) :
  (forall h, Pre h -> Post (length h) (h ++ [a])) -> returns Pre (alloc a) Post.
Proof. intros H h HPre. exists (length h), (h ++ [a]). auto. Qed.

Lemma returns_for_each {A} (J : heap -> Prop) (l : list A) (body : A -> M unit) :
  (forall a, a ∈ l -> returns J (body a) (fun _ => J)) ->
  returns J (for_each l body) (fun _ => J).
Proof.
  induction l as [| a l IH]; intros Hbody; [apply returns_ret; auto |].
  cbn [for_each]. eapply returns_bind; [apply Hbody; left |].
  intros ?. apply IH. intros b Hb. apply Hbody. right. assumption.
Qed.

Lemma returns_collect {A B} (J : heap -> Prop) (l : list A) (body : A -> M B) :
  (forall a, returns J (body a) (fun _ => J)) ->
  returns J (collect l body) (fun _ => J).
Proof.
  intros Hbody. induction l as [| a l IH]; [apply returns_ret; auto |].
  cbn [collect]. eapply returns_bind; [apply Hbody |]. intros b.
  eapply returns_bind; [apply IH |]. intros bs. apply returns_ret. auto.
Qed.

Variable f : fit.
Variable p : loc.

Lemma loop_ready_H h :
  loop_ready f p h ->
  exists Hm, h !! fit_H f = Some (Arr2 Hm)
             /\ nrows Hm = fit_Nmodels f /\ ncols Hm = fit_Nmodels f.
Proof. intros R. apply R. Qed.

Lemma loop_ready_g0 h :
  loop_ready f p h ->
  exists gv, h !! fit_g0 f = Some (Arr1 gv) /\ length gv = fit_Nmodels f.
Proof. intros (_ & R & _). exact R. Qed.

Lemma loop_ready_expected h e :
  loop_ready f p h -> fit_expected f = Some e ->
  exists ev, h !! e = Some (Arr1 ev) /\ length ev = fit_Nmodels f.
Proof. intros (_ & _ & R & _). apply R. Qed.

Lemma loop_ready_p h :
  loop_ready f p h ->
  exists pv, h !! p = Some (Arr1 pv) /\ length pv = fit_Nmodels f.
Proof. intros (_ & _ & _ & R & _). exact R. Qed.

Lemma loop_ready_alloc h a : loop_ready f p h -> loop_ready f p (h ++ [a]).
Proof.
  intros ((Hm & EH & HH) & (gv & Eg & Hg) & He & (pv & Ep & Hp) & Hd).
  repeat split; try tauto.
  - exists Hm. rewrite lookup_app_l by (eapply lookup_lt_Some; eauto). auto.
  - exists gv. rewrite lookup_app_l by (eapply lookup_lt_Some; eauto). auto.
  - intros e Hfe. destruct (He e Hfe) as (ev & Ee & Hev).
    exists ev. rewrite lookup_app_l by (eapply lookup_lt_Some; eauto). auto.
  - exists pv. rewrite lookup_app_l by (eapply lookup_lt_Some; eauto). auto.
Qed.

Lemma loop_ready_write h v :
  loop_ready f p h -> length v = fit_Nmodels f ->
  loop_ready f p (<[p := Arr1 v]> h).
Proof.
  intros ((Hm & EH & HH) & (gv & Eg & Hg) & He & (pv & Ep & Hp) & D1 & D2 & D3) Hv.
  repeat split; try assumption.
  - exists Hm. rewrite list_lookup_insert_ne by assumption. auto.
  - exists gv. rewrite list_lookup_insert_ne by assumption. auto.
  - intros e Hfe. destruct (He e Hfe) as (ev & Ee & Hev).
    exists ev. rewrite list_lookup_insert_ne by (apply D3; assumption). auto.
  - exists v. rewrite list_lookup_insert_eq by (eapply lookup_lt_Some; eauto). auto.
Qed.

Lemma add2_square (a b : matrix) n :
  nrows a = n -> ncols a = n -> nrows b = n -> ncols b = n ->
  exists c, add2 a b = Return c /\ nrows c = n /\ ncols c = n.
Proof.
  intros Ha1 Ha2 Hb1 Hb2. unfold add2, bdim.
  rewrite !decide_True by congruence.
  eexists. split; [reflexivity |]. cbn [nrows ncols]. auto.
Qed.

Lemma reads_q_eval delta :
  reads (plot_ready f delta p) (q_eval f delta p) (fun _ => True).
Proof.
  unfold q_eval.
  eapply reads_bind.
  { apply (reads_load1 _ _ (fun gv => length gv = fit_Nmodels f)).
    intros h (R & _). apply loop_ready_g0. assumption. }
  intros gv Hgv. cbv beta in Hgv. eapply reads_bind.
  { apply (reads_load1 _ _ (fun pv => length pv = fit_Nmodels f)).
    intros h (R & _). apply loop_ready_p. assumption. }
  intros pv Hpv. cbv beta in Hpv. eapply reads_bind.
  { eapply (reads_lift _ _ _ (fun _ => True)); [| trivial].
    unfold dot11. rewrite decide_True by congruence. reflexivity. }
  intros a _. eapply reads_bind.
  { apply (reads_load2 _ _ (fun Hm => nrows Hm = fit_Nmodels f
                                      /\ ncols Hm = fit_Nmodels f)).
    intros h (R & _). apply loop_ready_H. assumption. }
  intros Hm [HH1 HH2]. eapply reads_bind.
  { apply (reads_load2 _ _ (fun dm => nrows dm = fit_Nmodels f
                                      /\ ncols dm = fit_Nmodels f)).
    intros h (_ & _ & Hd). exact Hd. }
  intros dm [Hd1 Hd2].
  destruct (add2_square Hm (scal2 (fit_nu f) dm) (fit_Nmodels f))
    as (Qm & EQ & HQ1 & HQ2); try assumption.
  eapply reads_bind.
  { apply (reads_lift _ _ Qm (fun Qm => nrows Qm = fit_Nmodels f
                                        /\ ncols Qm = fit_Nmodels f));
      auto. }
  intros Qm' [HQ1' HQ2']. eapply reads_bind.
  { eapply (reads_lift _ _ _ (fun Qp => length Qp = fit_Nmodels f)).
    - unfold dot21. rewrite decide_True by congruence. reflexivity.
    - rewrite length_fmap, length_seq. assumption. }
  intros Qp HQp. eapply reads_bind.
  { eapply (reads_lift _ _ _ (fun _ => True)); [| trivial].
    unfold dot11. rewrite decide_True by congruence. reflexivity. }
  intros b _. apply reads_ret. trivial.
Qed.

Lemma returns_setitem1 delta i x :
  (i < fit_Nmodels f)%nat ->
  returns (plot_ready f delta p) (setitem1 p i x)
    (fun _ => plot_ready f delta p).
Proof.
  intros Hi h (R & Hne & dm & Ed & Hd).
  pose proof R as (_ & _ & _ & (pv & Ep & Hp) & _).
  exists tt, (<[p := Arr1 (<[i := x]> pv)]> h). split.
  - unfold setitem1, load1, bind, load. rewrite Ep. cbn [as_vector ret].
    rewrite decide_True by lia. unfold write. rewrite Ep. reflexivity.
  - split; [apply loop_ready_write; [assumption | rewrite length_insert; assumption] |].
    split; [assumption |].
    exists dm. rewrite list_lookup_insert_ne by congruence. auto.
Qed.

Lemma returns_plot_block delta :
  returns (plot_ready f delta p) (plot_block f delta p)
    (fun _ => plot_ready f delta p).
Proof.
  unfold plot_block.
  eapply returns_bind.
  - apply returns_for_each. intros i Hi. apply elem_of_seq in Hi.
    eapply returns_bind.
    + apply returns_collect. intros x.
      eapply returns_bind; [apply returns_setitem1; lia |].
      intros ? h HJ. destruct (reads_q_eval delta h HJ) as (v & E & _).
      exists v, h. auto.
    + intros ys. apply returns_ret. auto.
  - intros ?. apply returns_ret. auto.
Qed.

(** With vectors and matrices of the right extents a turn of the loop
    reaches the call of the solver, and the heap is ready for the next
    turn on the same [p]. *)
Lemma returns_mem_iter_args :
  returns (loop_ready f p) (mem_iter_args f p)
    (fun a h => arg_x0 a = p /\ loop_ready f p h).
Proof.
  unfold mem_iter_args.
  eapply returns_read_bind.
  { apply (reads_load1 _ _ (fun pv => length pv = fit_Nmodels f)).
    intros h R. apply loop_ready_p. assumption. }
  intros pv Hpv. cbv beta in Hpv. eapply returns_read_bind.
  { instantiate (1 := fun ratio => length ratio = fit_Nmodels f).
    destruct (fit_expected f) as [e |] eqn:Ee.
    - eapply reads_bind.
      + apply (reads_load1 _ _ (fun ev => length ev = fit_Nmodels f)).
        intros h R. apply (loop_ready_expected h e R Ee).
      + intros ev Hev. cbv beta in Hev. eapply reads_lift.
        * apply broadcast1_same_length. congruence.
        * rewrite length_zip_with. lia.
    - apply reads_ret. rewrite length_fmap. assumption. }
  intros ratio Hratio. cbv beta in Hratio. eapply returns_read_bind.
  { eapply (reads_lift _ _ _ (fun dg => length dg = fit_Nmodels f)).
    - apply broadcast1_same_length. rewrite length_fmap. congruence.
    - rewrite length_zip_with, length_fmap. lia. }
  intros dg Hdg. cbv beta in Hdg.
  eapply returns_bind.
  { apply (returns_alloc _ _ (fun delta h => plot_ready f delta p h)).
    intros h R. split; [apply loop_ready_alloc; assumption |].
    pose proof R as (_ & _ & _ & (pv' & Ep & _) & _).
    split; [apply lookup_lt_Some in Ep; lia |].
    eexists. split; [apply lookup_snoc_new |].
    cbn [np_diag nrows ncols]. auto. }
  intros delta. eapply returns_bind; [apply returns_plot_block |].
  intros ?. eapply returns_read_bind.
  { apply (reads_load2 _ _ (fun Hm => nrows Hm = fit_Nmodels f
                                      /\ ncols Hm = fit_Nmodels f)).
    intros h (R & _). apply loop_ready_H. assumption. }
  intros Hm [HH1 HH2]. eapply returns_read_bind.
  { apply (reads_load2 _ _ (fun dm => nrows dm = fit_Nmodels f
                                      /\ ncols dm = fit_Nmodels f)).
    intros h (_ & _ & Hd). exact Hd. }
  intros dm [Hd1 Hd2].
  destruct (add2_square Hm (scal2 (fit_nu f) dm) (fit_Nmodels f))
    as (Qm & EQ & HQ1 & HQ2); try assumption.
  eapply returns_read_bind.
  { apply (reads_lift _ _ Qm (fun _ => True)); auto. }
  intros Qm' _.
  eapply returns_bind.
  { apply (returns_alloc _ _ (fun _ h => loop_ready f p h)).
    intros h (R & _). apply loop_ready_alloc. assumption. }
  intros Q. eapply returns_bind.
  { apply (returns_alloc _ _ (fun _ h => loop_ready f p h)).
    intros h R. apply loop_ready_alloc. assumption. }
  intros C. eapply returns_bind.
  { apply (returns_alloc _ _ (fun _ h => loop_ready f p h)).
    intros h R. apply loop_ready_alloc. assumption. }
  intros d. apply returns_ret. auto.
Qed.

End Progress.

Section ProgressLoop.
Import FcsMem.

(** With the solver that returns a copy of [x0] every turn of the loop
    completes and leaves the heap ready for the next one. *)
Lemma returns_mem_iter_copy (f : fit) (p : loc) :
  returns (loop_ready f p) (mem_iter solver_copy f p)
    (fun pNew h => loop_ready f pNew h).
Proof.
  intros h R.
  destruct (returns_mem_iter_args f p h R) as (a & h1 & E & Hx & R1).
  pose proof R1 as ((Hm & EH & HH) & (gv & Eg & Hg) & He & (pv & Ep & Hp) & _).
  exists (length h1), (h1 ++ [Arr1 pv]). split.
  - unfold mem_iter, bind. rewrite E.
    unfold solver_copy, bind, load. rewrite Hx, Ep. reflexivity.
  - repeat split.
    + exists Hm. rewrite lookup_app_l by (eapply lookup_lt_Some; eauto). auto.
    + exists gv. rewrite lookup_app_l by (eapply lookup_lt_Some; eauto). auto.
    + intros e Hfe. destruct (He e Hfe) as (ev & Ee & Hev).
      exists ev. rewrite lookup_app_l by (eapply lookup_lt_Some; eauto). auto.
    + exists pv. rewrite lookup_snoc_new. auto.
    + apply lookup_lt_Some in EH. lia.
    + apply lookup_lt_Some in Eg. lia.
    + intros e Hfe. destruct (He e Hfe) as (ev & Ee & _).
      apply lookup_lt_Some in Ee. lia.
Qed.

Lemma mem_loop_copy_runs (fuel : nat) (f : fit) (p : loc) (h : heap) :
  loop_ready f p h ->
  exists h', mem_loop solver_copy fuel f p h = (h', Return None).
Proof.
  revert p h. induction fuel as [| fuel IH]; intros p h R.
  - exists h. reflexivity.
  - destruct (returns_mem_iter_copy f p h R) as (pNew & h1 & E & R1).
    destruct (IH pNew h1 R1) as (h' & E').
    exists h'. cbn [mem_loop]. unfold bind. rewrite E. exact E'.
Qed.

End ProgressLoop.

Section ProgressSetup.
Import FcsMem.

Variable uninit1 : nat -> xreal.
Variable uninit2 : nat -> nat -> xreal.

(** When the set-up returns, the heap is ready for the first turn. *)
Lemma mem_setup_loop_ready (h : heap) (y models sigma : loc)
    (p0 expected : option loc) (nu : xreal)
    (mm : matrix) (yv sv : list xreal) :
  h !! models = Some (Arr2 mm) ->
  h !! y = Some (Arr1 yv) ->
  h !! sigma = Some (Arr1 sv) ->
  length yv = ncols mm ->
  length sv = ncols mm ->
  (forall e, expected = Some e ->
             exists a_e, h !! e = Some a_e /\ shape a_e = [nrows mm]) ->
  (forall l, p0 = Some l ->
             exists a_p0, h !! l = Some a_p0 /\ shape a_p0 = [nrows mm]) ->
  ncols mm <> 0%nat ->
  exists h' f p,
    mem_setup uninit1 uninit2 y models sigma p0 expected nu h
    = (h', Return (f, p))
    /\ loop_ready f p h'.
Proof.
  intros Hmodels Hy Hsigma Ly Ls Se Sp Hpts.
  destruct (mem_setup_returns uninit1 uninit2 h y models sigma p0 expected nu
              mm yv sv Hmodels Hy Hsigma Ly Ls Se Sp Hpts)
    as (h' & p & pv & Hf & gv & E & Hp & L & Hold & Epv & Lpv & EH & Eg & _ & Lgv & _).
  exists h', (Fit (nrows mm) (S p) (S (S p)) expected nu), p.
  split; [assumption |].
  unfold loop_ready. cbn [fit_H fit_g0 fit_expected fit_Nmodels].
  split; [eexists; split; [exact EH | cbn [nrows ncols]; auto] |].
  split; [eauto |].
  split.
  { intros e He. destruct (Se e He) as (a_e & Ee & Hsh).
    destruct (shape_vector _ _ Hsh) as (ev & -> & Lev).
    exists ev. rewrite Hold by (eapply lookup_lt_Some; eauto). auto. }
  split; [eauto |].
  split; [lia |]. split; [lia |].
  intros e He. destruct (Se e He) as (a_e & Ee & _).
  apply lookup_lt_Some in Ee. lia.
Qed.

End ProgressSetup.

Section NoReturnScenario.
Import FcsMem.

(** C2, the code at the failing input.  On the scenario of the
    specification [mem] has not returned after any number of turns of its
    loop, whatever the solver does, because [converged] is [False] in
    every turn; and with a solver that simply returns a copy of [x0] no
    turn raises, so that the loop goes on for ever. *)
Theorem mem_scenario_never_returns :
  (forall (uninit1 : nat -> xreal) (uninit2 : nat -> nat -> xreal)
          (shrager : solver_args -> M loc) (fuel : nat) (l : loc),
     (mem uninit1 uninit2 shrager 0 1 2 (Some 4%nat) (Some 3%nat)
          (Fin 5e-6) (Fin 1e-4) fuel
          (scenario_heap scenario_y scenario_sigma)).2
     <> Return (Some l))
  /\ (forall fuel : nat,
        (mem (fun _ => NaN) (fun _ _ => NaN) solver_copy
             0 1 2 (Some 4%nat) (Some 3%nat) (Fin 5e-6) (Fin 1e-4) fuel
             (scenario_heap scenario_y scenario_sigma)).2
        = Return None).
Proof.
  split; [intros; apply mem_never_returns |].
  intros fuel.
  destruct (mem_setup_loop_ready (fun _ => NaN) (fun _ _ => NaN)
              (scenario_heap scenario_y scenario_sigma)
              0 1 2 (Some 4%nat) (Some 3%nat) (Fin 5e-6)
              scenario_models scenario_y scenario_sigma)
    as (h' & f & p & E & R); try reflexivity.
  - intros e [= <-]. eexists. split; reflexivity.
  - intros l [= <-]. eexists. split; reflexivity.
  - discriminate.
  - destruct (mem_loop_copy_runs fuel f p h' R) as (h2 & E2).
    unfold mem, bind. rewrite E. cbn [fst snd]. rewrite E2. reflexivity.
Qed.

End NoReturnScenario.

(** * Further properties of [change_point.py] *)

Section Tau95Shape.
Import ChangePoint.

Lemma ln_pos (n : R) : 1 < n -> 0 < ln n.
Proof. intros H. rewrite <- ln_1. apply ln_increasing; lra. Qed.

Lemma ln_lt_minus_1 (x : R) : 0 < x -> x <> 1 -> ln x < x - 1.
Proof.
  intros Hx Hne. assert (Hln : ln x <> 0).
  { intros E. apply Hne. rewrite <- (exp_ln x), E by assumption. apply exp_0. }
  pose proof (exp_ineq1 (ln x) Hln) as H.
  rewrite exp_ln in H by assumption. lra.
Qed.

(** The logarithm grows by less than the relative increment. *)
Lemma ln_increment (n m : R) : 0 < n -> n < m -> ln m - ln n < (m - n) / n.
Proof.
  intros Hn Hm.
  assert (Hq : 1 < m / n).
  { apply (Rmult_lt_reg_r n); [assumption |].
    unfold Rdiv. rewrite Rmult_assoc, Rinv_l by lra. lra. }
  assert (E : ln m = ln (m / n) + ln n).
  { rewrite <- ln_mult by lra. f_equal. field. lra. }
  pose proof (ln_lt_minus_1 (m / n) ltac:(lra) ltac:(lra)) as H.
  replace ((m - n) / n) with (m / n - 1) by (field; lra). lra.
Qed.

(** An expression [(a + c log n)/n] with [0 < c < a] is positive and
    strictly decreasing for [n > 1]. *)
Lemma affine_log_over_n_pos (a c n : R) :
  0 < c -> 0 < a -> 1 < n -> 0 < (a + c * ln n) / n.
Proof.
  intros Hc Ha Hn. pose proof (ln_pos n Hn).
  apply Rdiv_lt_0_compat; nra.
Qed.

Lemma affine_log_over_n_decreasing (a c n m : R) :
  0 < c -> c < a -> 1 < n -> n < m ->
  (a + c * ln m) / m < (a + c * ln n) / n.
Proof.
  intros Hc Ha Hn Hm.
  pose proof (ln_pos n Hn) as Hln.
  pose proof (ln_increment n m ltac:(lra) Hm) as Hinc.
  assert (Hinc' : n * (ln m - ln n) < m - n).
  { apply (Rmult_lt_compat_l n) in Hinc; [| lra].
    replace (n * ((m - n) / n)) with (m - n) in Hinc by (field; lra).
    exact Hinc. }
  apply (Rmult_lt_reg_r (m * n)); [nra |].
  replace ((a + c * ln m) / m * (m * n)) with (n * (a + c * ln m))
    by (field; lra).
  replace ((a + c * ln n) / n * (m * n)) with (m * (a + c * ln n))
    by (field; lra).
  assert (H1 : c * (n * (ln m - ln n)) < c * (m - n))
    by (apply Rmult_lt_compat_l; assumption).
  assert (H2 : 0 < c * ln n) by (apply Rmult_lt_0_compat; assumption).
  assert (H3 : 0 < (m - n) * (a - c + c * ln n))
    by (apply Rmult_lt_0_compat; lra).
  lra.
Qed.

(** X1.  For every sample size [n > 1] the critical value [tau95(n)] is a
    positive number. *)
Theorem tau95_positive (n : R) :
  1 < n -> exists r, tau95 (Fin n) = Return (Fin r) /\ 0 < r.
Proof.
  intros Hn. destruct (Rle_dec n 100) as [Hle | Hgt].
  - eexists. split; [apply tau95_low; assumption |].
    apply affine_log_over_n_pos; lra.
  - eexists. split; [apply tau95_high; lra |].
    apply affine_log_over_n_pos; lra.
Qed.

Lemma tau95_positive_witness :
  exists r, tau95 (Fin 1000) = Return (Fin r) /\ 0 < r.
Proof. apply (tau95_positive 1000). lra. Defined.

(** X2.  On each of its two ranges, [1 < n <= 100] and [n > 100], the
    critical value strictly decreases when the sample size grows. *)
Theorem tau95_decreasing (n m : R) :
  1 < n -> n < m -> m <= 100 \/ 100 < n ->
  exists rn rm,
    tau95 (Fin n) = Return (Fin rn) /\ tau95 (Fin m) = Return (Fin rm)
    /\ rm < rn.
Proof.
  intros Hn Hm [Hlow | Hhigh].
  - eexists _, _. split; [apply tau95_low; lra |].
    split; [apply tau95_low; lra |].
    apply affine_log_over_n_decreasing; lra.
  - eexists _, _. split; [apply tau95_high; lra |].
    split; [apply tau95_high; lra |].
    apply affine_log_over_n_decreasing; lra.
Qed.

Lemma tau95_decreasing_witness :
  exists rn rm,
    tau95 (Fin 200) = Return (Fin rn) /\ tau95 (Fin 1000) = Return (Fin rm)
    /\ rm < rn.
Proof. apply (tau95_decreasing 200 1000); [lra | lra | right; lra]. Defined.

Lemma xlt_trans_fin a b (n : xreal) :
  a <= b -> xlt (Fin b) n = true -> xlt (Fin a) n = true.
Proof.
  intros Hab. destruct n as [r | | |]; simpl; try easy.
  destruct (Rlt_dec b r); [| easy]. intros _.
  destruct (Rlt_dec a r); [reflexivity | lra].
Qed.

Lemma xlt_of_not_xle a b (n : xreal) :
  xlt (Fin a) n = true -> xle n (Fin b) = false -> xlt (Fin b) n = true.
Proof.
  destruct n as [r | | |]; simpl; try easy.
  destruct (Rlt_dec a r); [| easy]. destruct (Rle_dec r b); [easy |].
  intros _ _. destruct (Rlt_dec b r); [reflexivity | lra].
Qed.

(** X13.  The error of [tau95] is about the sample size: the call
    [tau95(n)] raises the [RuntimeError] "Implement me" exactly when
    [1 < n] does not hold, that is for [n <= 1] and for NaN. *)
Theorem tau95_not_implemented_iff (n : xreal) :
  tau95 n = Raise (RuntimeError "Implement me") <-> xlt (Fin 1) n = false.
Proof.
  unfold tau95. split.
  - destruct (xlt (Fin 1) n) eqn:H1; [| reflexivity].
    cbn [andb]. destruct (xle n (Fin 100)) eqn:H2; [discriminate |].
    rewrite (xlt_of_not_xle 1 100 n H1 H2). discriminate.
  - intros H1. rewrite H1. cbn [andb].
    destruct (xlt (Fin 100) n) eqn:H100; [| reflexivity].
    apply (xlt_trans_fin 1 100) in H100; [congruence | lra].
Qed.

End Tau95Shape.

Section LikelihoodShape.
Import ChangePoint.

(** X3.  [compute_likelihood] raises [IndexError] on the empty series and
    on every other series returns a profile of the same length. *)
Theorem compute_likelihood_empty_or_same_length (times : list xreal) :
  match times with
  | [] => compute_likelihood times = Raise IndexError
  | _ :: _ => exists L, compute_likelihood times = Return L
                        /\ length L = length times
  end.
Proof.
  destruct times as [| t times]; [reflexivity |].
  destruct (last (t :: times)) as [T |] eqn:HT.
  - destruct (compute_likelihood_lookup _ T HT) as (L & HL & Hlen & _). eauto.
  - apply last_None in HT. discriminate.
Qed.

Lemma last_fin (ts : list R) (T : R) :
  last ts = Some T -> last (Fin <$> ts) = Some (Fin T).
Proof. intros H. rewrite fmap_last, H. reflexivity. Qed.

(** X4.  For a series of at least two finite timestamps whose last one is
    positive, the first entry of the profile is NaN and the last entry is
    [+inf], so that the profile is never finite at its two ends. *)
Theorem likelihood_ends_not_finite (ts : list R) (T : R) :
  (2 <= length ts)%nat ->
  last ts = Some T ->
  0 < T ->
  exists L,
    compute_likelihood (Fin <$> ts) = Return L
    /\ L !! 0%nat = Some NaN
    /\ L !! (length ts - 1)%nat = Some PInf.
Proof.
  intros HN HT Hpos. pose proof (last_fin ts T HT) as HT'.
  destruct (lookup_lt_is_Some_2 ts 0) as [t0 Ht0]; [lia |].
  destruct (likelihood_first_nan (Fin <$> ts) T t0 HT' Hpos)
    as (L & HL & H0).
  { rewrite list_lookup_fmap, Ht0. reflexivity. }
  destruct (likelihood_last_infinite (Fin <$> ts) T) as (L' & HL' & Hlast);
    [rewrite length_fmap; assumption | assumption | assumption |].
  assert (L' = L) by congruence. subst L'.
  rewrite length_fmap in Hlast. eauto.
Qed.

Lemma likelihood_ends_not_finite_witness :
  exists L,
    compute_likelihood (Fin <$> [1; 2; 4]) = Return L
    /\ L !! 0%nat = Some NaN
    /\ L !! 2%nat = Some PInf.
Proof.
  apply (likelihood_ends_not_finite [1; 2; 4] 4);
    [simpl; lia | reflexivity | lra].
Defined.

Lemma signed_inf_scale (c t : R) : 0 < c -> signed_inf (c * t) = signed_inf t.
Proof.
  intros Hc. unfold signed_inf.
  destruct (Rlt_dec 0 t) as [Ht | Ht].
  - destruct (Rlt_dec 0 (c * t)); [reflexivity | nra].
  - destruct (Rlt_dec 0 (c * t)); [nra |].
    destruct (Rlt_dec t 0); destruct (Rlt_dec (c * t) 0);
      (reflexivity || nra).
Qed.

Lemma xdiv_scale (c t T : R) :
  0 < c -> (Fin (c * t) / Fin (c * T))%X = (Fin t / Fin T)%X.
Proof.
  intros Hc. cbn [xdiv].
  destruct (Req_dec_T T 0) as [-> | HT].
  - destruct (Req_dec_T (c * 0) 0); [| lra]. apply signed_inf_scale, Hc.
  - destruct (Req_dec_T (c * T) 0); [nra |]. f_equal. field. lra.
Qed.

(** X5.  The profile depends on the timestamps only through their ratios
    to the last one: multiplying every timestamp by the same positive
    factor (a change of the unit of time) leaves it unchanged. *)
Theorem compute_likelihood_scale_invariant (ts : list R) (c : R) :
  0 < c ->
  compute_likelihood (Fin <$> (Rmult c <$> ts))
  = compute_likelihood (Fin <$> ts).
Proof.
  intros Hc. unfold compute_likelihood.
  rewrite !length_fmap, !fmap_last.
  destruct (last ts) as [T |]; [| reflexivity].
  cbn [fmap option_fmap option_map].
  assert (HV : (fun t => t / Fin (c * T))%X <$> (Fin <$> (Rmult c <$> ts))
               = (fun t => t / Fin T)%X <$> (Fin <$> ts)).
  { rewrite <- !list_fmap_compose. apply list_fmap_ext.
    intros i t _. cbn. apply xdiv_scale. assumption. }
  rewrite HV. reflexivity.
Qed.

Lemma compute_likelihood_scale_invariant_witness :
  compute_likelihood (Fin <$> (Rmult 1000 <$> [1; 2; 4]))
  = compute_likelihood (Fin <$> [1; 2; 4]).
Proof. apply compute_likelihood_scale_invariant. lra. Defined.

End LikelihoodShape.

Section Chunks.
Import ChangePoint.

Lemma concat_windows {A} (c m : nat) (l : list A) :
  (length l <= m * c)%nat ->
  concat ((fun i => take c (drop i l)) <$> ((fun j => j * c)%nat <$> seq 0 m))
  = l.
Proof.
  revert l. induction m as [| m IH]; intros l Hl.
  - destruct l; [reflexivity | simpl in Hl; lia].
  - cbn [seq]. rewrite <- fmap_S_seq, !fmap_cons. cbn [concat].
    rewrite <- !list_fmap_compose.
    assert (E : (fun i => take c (drop i l)) ∘ (fun j => (j * c)%nat) ∘ S <$> seq 0 m
                = (fun i => take c (drop i (drop c l)))
                    <$> ((fun j => (j * c)%nat) <$> seq 0 m)).
    { rewrite <- list_fmap_compose. apply list_fmap_ext.
      intros i j _. cbn. rewrite drop_drop. reflexivity. }
    rewrite E, IH by (rewrite length_drop; lia).
    apply take_drop.
Qed.

(** X7.  The windows [times[i:i+chunk_sz]] that the loop of
    [find_change_points] goes through, for [i] in
    [range(0, len(times), chunk_sz)], cut the series into consecutive
    pieces: put together they give the series back, none of them is
    empty and none is longer than [chunk_sz]. *)
Theorem chunk_windows_partition (times : list xreal) :
  concat ((fun i => take chunk_sz (drop i times))
            <$> range_step (length times) chunk_sz) = times
  /\ forall i, i ∈ range_step (length times) chunk_sz ->
               take chunk_sz (drop i times) <> []
               /\ (length (take chunk_sz (drop i times)) <= chunk_sz)%nat.
Proof.
  unfold range_step, chunk_sz. split.
  - apply concat_windows.
    pose proof (Nat.div_mod_eq (length times + 1000 - 1) 1000).
    pose proof (Nat.mod_upper_bound (length times + 1000 - 1) 1000). lia.
  - intros i Hi. apply list_elem_of_fmap in Hi as (j & -> & Hj).
    apply elem_of_seq in Hj.
    pose proof (Nat.div_mod_eq (length times + 1000 - 1) 1000).
    pose proof (Nat.mod_upper_bound (length times + 1000 - 1) 1000).
    split.
    + intros E. apply (f_equal length) in E.
      rewrite length_take, length_drop in E. cbn [length] in E. lia.
    + rewrite length_take. lia.
Qed.

End Chunks.

(** * Further properties of [fcs_mem.py] *)

Section SetupEdges.
Import FcsMem.

Variable uninit1 : nat -> xreal.
Variable uninit2 : nat -> nat -> xreal.
Variable shrager : solver_args -> M loc.

(** X8.  With models of shape [(Nmodels, 0)], [Nmodels > 0], and arrays
    that pass the assertions, [mem] raises [ZeroDivisionError]: the first
    turn of the set-up loop divides 2 by [Npts = 0].  The solver is not
    called. *)
Theorem mem_no_points_zero_division
    (h : heap) (y models sigma : loc) (p0 expected : option loc)
    (nu delta_thresh : xreal) (fuel : nat) (mm : matrix) :
  h !! models = Some (Arr2 mm) ->
  ncols mm = 0%nat ->
  nrows mm <> 0%nat ->
  h !! y = Some (Arr1 []) ->
  h !! sigma = Some (Arr1 []) ->
  (forall e, expected = Some e ->
             exists a_e, h !! e = Some a_e /\ shape a_e = [nrows mm]) ->
  (forall l, p0 = Some l ->
             exists a_p0, h !! l = Some a_p0 /\ shape a_p0 = [nrows mm]) ->
  (mem uninit1 uninit2 shrager y models sigma p0 expected nu delta_thresh
       fuel h).2
  = Raise ZeroDivisionError.
Proof.
  intros Hmodels Hpts Hrows Hy Hsigma Se Sp.
  destruct (mem_initial_p_returns h (nrows mm) p0 Sp)
    as (h1 & p & pv & E1 & _).
  unfold mem, bind at 1. unfold mem_setup, bind at 1.
  rewrite (mem_shapes_accepts h y models sigma expected mm _ _
             Hmodels Hy Hsigma)
    by (cbn [shape length]; congruence || assumption).
  cbn [fst snd]. unfold bind at 1. rewrite E1.
  unfold bind at 1. unfold mem_matrices.
  rewrite !run_alloc. cbn [as_vector]. rewrite !run_ret.
  unfold assemble. destruct (nrows mm) as [| n] eqn:En; [contradiction |].
  cbn [seq foldM]. unfold fill_column at 1, int_div.
  rewrite Hpts. rewrite decide_True by reflexivity. reflexivity.
Qed.

End SetupEdges.

Section SetupEdgesExample.
Import FcsMem.

Lemma mem_no_points_zero_division_witness :
  (mem (fun _ => NaN) (fun _ _ => NaN) solver_copy
       0 1 2 None None (Fin 5e-6) (Fin 1e-4) 3
       [Arr1 []; Arr2 (Mat 2 0 (fun _ _ => NaN)); Arr1 []]).2
  = Raise ZeroDivisionError.
Proof.
  apply (mem_no_points_zero_division (fun _ => NaN) (fun _ _ => NaN)
           solver_copy
           [Arr1 []; Arr2 (Mat 2 0 (fun _ _ => NaN)); Arr1 []]
           0 1 2 None None (Fin 5e-6) (Fin 1e-4) 3
           (Mat 2 0 (fun _ _ => NaN)));
    try reflexivity; discriminate.
Defined.

End SetupEdgesExample.

Section InitialWeights.
Import FcsMem.

Variable uninit1 : nat -> xreal.
Variable uninit2 : nat -> nat -> xreal.

(** X9.  When the set-up completes, the vector [p] of the first turn is a
    new array: it holds the contents of [p0], which itself is left as it
    was, or [Nmodels] ones when no [p0] is given. *)
Theorem mem_initial_p_is_copy
    (h : heap) (y models sigma : loc) (p0 expected : option loc) (nu : xreal)
    (mm : matrix) (yv sv : list xreal) :
  h !! models = Some (Arr2 mm) ->
  h !! y = Some (Arr1 yv) ->
  h !! sigma = Some (Arr1 sv) ->
  length yv = ncols mm ->
  length sv = ncols mm ->
  (forall e, expected = Some e ->
             exists a_e, h !! e = Some a_e /\ shape a_e = [nrows mm]) ->
  (forall l, p0 = Some l ->
             exists a_p0, h !! l = Some a_p0 /\ shape a_p0 = [nrows mm]) ->
  ncols mm <> 0%nat ->
  exists h' f p pv,
    mem_setup uninit1 uninit2 y models sigma p0 expected nu h
    = (h', Return (f, p))
    /\ (length h <= p)%nat
    /\ h' !! p = Some (Arr1 pv)
    /\ (forall l, p0 = Some l ->
                  h !! l = Some (Arr1 pv) /\ h' !! l = Some (Arr1 pv))
    /\ (p0 = None -> pv = np_ones (nrows mm)).
Proof.
  intros Hmodels Hy Hsigma Ly Ls Se Sp Hpts.
  destruct (mem_initial_p_returns h (nrows mm) p0 Sp)
    as (h1 & p & pv & E1 & Hp & L1 & Hold1 & Hpv & Lpv & Hcopy & Hones).
  destruct (mem_matrices_returns uninit1 uninit2 h1 mm yv sv Ly Ls Hpts)
    as (h2 & Hf & gv & E2 & L2 & Hold2 & _).
  exists h2, (Fit (nrows mm) (S p) (S (S p)) expected nu), p, pv.
  assert (Sy : shape (Arr1 yv) = [ncols mm]) by (cbn [shape]; congruence).
  assert (Ss : shape (Arr1 sv) = [ncols mm]) by (cbn [shape]; congruence).
  split.
  { unfold mem_setup. unfold bind at 1.
    rewrite (mem_shapes_accepts h y models sigma expected mm _ _
               Hmodels Hy Hsigma Sy Ss Se).
    cbn [fst snd]. unfold bind at 1. rewrite E1.
    unfold bind at 1. rewrite E2. cbn [fst snd]. unfold ret.
    rewrite L1. reflexivity. }
  split; [assumption |].
  split; [rewrite Hold2 by lia; assumption |].
  split; [| assumption].
  intros l Hl. pose proof (Hcopy l Hl) as Hhl.
  split; [assumption |].
  pose proof (lookup_lt_Some _ _ _ Hhl).
  rewrite Hold2, Hold1 by lia. assumption.
Qed.

End InitialWeights.

Section InitialWeightsExample.
Import FcsMem.

Lemma mem_initial_p_is_copy_witness :
  exists h' f p pv,
    mem_setup (fun _ => NaN) (fun _ _ => NaN)
      0 1 2 (Some 4%nat) (Some 3%nat) (Fin 5e-6)
      (scenario_heap scenario_y scenario_sigma)
    = (h', Return (f, p))
    /\ (5 <= p)%nat
    /\ h' !! p = Some (Arr1 pv)
    /\ (forall l, Some 4%nat = Some l ->
                  scenario_heap scenario_y scenario_sigma !! l = Some (Arr1 pv)
                  /\ h' !! l = Some (Arr1 pv))
    /\ (Some 4%nat = None -> pv = np_ones 2).
Proof.
  apply (mem_initial_p_is_copy (fun _ => NaN) (fun _ _ => NaN)
           (scenario_heap scenario_y scenario_sigma)
           0 1 2 (Some 4%nat) (Some 3%nat) (Fin 5e-6)
           scenario_models scenario_y scenario_sigma);
    try reflexivity.
  - intros e [= <-]. eexists. split; reflexivity.
  - intros l [= <-]. eexists. split; reflexivity.
  - discriminate.
Defined.

End InitialWeightsExample.

Section SolverFailure.
Import FcsMem.

Variable uninit1 : nat -> xreal.
Variable uninit2 : nat -> nat -> xreal.
Variable shrager : solver_args -> M loc.

(** X10.  An exception of the solver is not caught: when the set-up
    completes and the solver raises [e] on its first call, [mem] raises
    [e], for every positive number of turns allowed. *)
Theorem mem_solver_error_propagates
    (h : heap) (y models sigma : loc) (p0 expected : option loc)
    (nu delta_thresh : xreal) (fuel : nat)
    (mm : matrix) (yv sv : list xreal) (e : exn) :
  (forall a h, (shrager a h).2 = Raise e) ->
  h !! models = Some (Arr2 mm) ->
  h !! y = Some (Arr1 yv) ->
  h !! sigma = Some (Arr1 sv) ->
  length yv = ncols mm ->
  length sv = ncols mm ->
  (forall e, expected = Some e ->
             exists a_e, h !! e = Some a_e /\ shape a_e = [nrows mm]) ->
  (forall l, p0 = Some l ->
             exists a_p0, h !! l = Some a_p0 /\ shape a_p0 = [nrows mm]) ->
  ncols mm <> 0%nat ->
  (mem uninit1 uninit2 shrager y models sigma p0 expected nu delta_thresh
       (S fuel) h).2
  = Raise e.
Proof.
  intros Hfail Hmodels Hy Hsigma Ly Ls Se Sp Hpts.
  destruct (mem_setup_loop_ready uninit1 uninit2 h y models sigma p0 expected
              nu mm yv sv Hmodels Hy Hsigma Ly Ls Se Sp Hpts)
    as (h1 & f & p & E & R).
  destruct (returns_mem_iter_args f p h1 R) as (a & h2 & E2 & _).
  unfold mem, bind at 1. rewrite E. cbn [fst snd mem_loop].
  unfold bind at 1. unfold mem_iter, bind at 1. rewrite E2.
  pose proof (Hfail a h2) as Hf.
  destruct (shrager a h2) as [h3 r]. cbn [snd] in Hf. subst r. reflexivity.
Qed.

End SolverFailure.

Section SolverFailureExample.
Import FcsMem.

Lemma mem_solver_error_propagates_witness :
  (mem (fun _ => NaN) (fun _ _ => NaN)
       (fun _ => raise (RuntimeError "infeasible"))
       0 1 2 (Some 4%nat) (Some 3%nat) (Fin 5e-6) (Fin 1e-4) 1
       (scenario_heap scenario_y scenario_sigma)).2
  = Raise (RuntimeError "infeasible").
Proof.
  apply (mem_solver_error_propagates (fun _ => NaN) (fun _ _ => NaN)
           (fun _ => raise (RuntimeError "infeasible"))
           (scenario_heap scenario_y scenario_sigma)
           0 1 2 (Some 4%nat) (Some 3%nat) (Fin 5e-6) (Fin 1e-4) 0
           scenario_models scenario_y scenario_sigma);
    try reflexivity.
  - intros e [= <-]. eexists. split; reflexivity.
  - intros l [= <-]. eexists. split; reflexivity.
  - discriminate.
Defined.

End SolverFailureExample.

Section PlotBlock.
Import FcsMem.

Lemma run_load1 {B} l v (k : list xreal -> M B) h :
  h !! l = Some (Arr1 v) -> bind (load1 l) k h = k v h.
Proof. intros H. unfold load1, bind, load. rewrite H. reflexivity. Qed.

Lemma run_load2 {B} l m (k : matrix -> M B) h :
  h !! l = Some (Arr2 m) -> bind (load2 l) k h = k m h.
Proof. intros H. unfold load2, bind, load. rewrite H. reflexivity. Qed.

Lemma foldl_insert_absorbed (i : nat) (s : xreal) (xs pv : list xreal) :
  <[i := s]> (foldl (fun v x => <[i := x]> v) pv xs) = <[i := s]> pv.
Proof.
  revert pv. induction xs as [| x xs IH]; intros pv; [reflexivity |].
  cbn [foldl]. rewrite IH. apply list_insert_insert_eq.
Qed.

Lemma foldl_fill_keeps (s : xreal) (l : list nat) (pv : list xreal) j :
  pv !! j = Some s ->
  foldl (fun v i => <[i := s]> v) pv l !! j = Some s.
Proof.
  revert pv. induction l as [| i l IH]; intros pv Hj; [assumption |].
  cbn [foldl]. apply IH.
  destruct (decide (i = j)) as [-> | Hne].
  - apply list_lookup_insert_eq. eapply lookup_lt_Some; eauto.
  - rewrite list_lookup_insert_ne by assumption. assumption.
Qed.

Lemma foldl_fill_length (s : xreal) (l : list nat) (pv : list xreal) :
  length (foldl (fun v i => <[i := s]> v) pv l) = length pv.
Proof.
  revert pv. induction l as [| i l IH]; intros pv; [reflexivity |].
  cbn [foldl]. rewrite IH. apply length_insert.
Qed.

Lemma foldl_fill_sets (s : xreal) (l : list nat) (pv : list xreal) j :
  j ∈ l -> (j < length pv)%nat ->
  foldl (fun v i => <[i := s]> v) pv l !! j = Some s.
Proof.
  revert pv. induction l as [| i l IH]; intros pv Hin Hj; [inversion Hin |].
  cbn [foldl]. apply elem_of_cons in Hin as [-> | Hin].
  - apply foldl_fill_keeps. apply list_lookup_insert_eq. assumption.
  - apply IH; [assumption | rewrite length_insert; assumption].
Qed.

Lemma foldl_fill_all (s : xreal) (pv : list xreal) :
  foldl (fun v i => <[i := s]> v) pv (seq 0 (length pv))
  = replicate (length pv) s.
Proof.
  apply list_eq. intros j.
  destruct (decide (j < length pv)%nat) as [Hj | Hj].
  - rewrite foldl_fill_sets by (assumption || (apply elem_of_seq; lia)).
    symmetry. apply lookup_replicate_2. assumption.
  - rewrite !lookup_ge_None_2;
      [reflexivity | rewrite length_replicate; lia
      | rewrite foldl_fill_length; lia].
Qed.

Variable f : fit.
Variables delta p : loc.

Lemma plot_ready_p h pv :
  plot_ready f delta p h -> h !! p = Some (Arr1 pv) ->
  length pv = fit_Nmodels f.
Proof.
  intros (R & _) Hp. destruct (loop_ready_p f p h R) as (pv' & Hp' & L).
  congruence.
Qed.

Lemma plot_ready_write h v :
  plot_ready f delta p h -> length v = fit_Nmodels f ->
  plot_ready f delta p (<[p := Arr1 v]> h).
Proof.
  intros (R & Hne & dm & Ed & Hd) Hv.
  split; [apply loop_ready_write; assumption |].
  split; [assumption |].
  exists dm. rewrite list_lookup_insert_ne by congruence. auto.
Qed.

Lemma setitem1_run h pv i x :
  h !! p = Some (Arr1 pv) -> (i < length pv)%nat ->
  setitem1 p i x h = (<[p := Arr1 (<[i := x]> pv)]> h, Return tt).
Proof.
  intros Hp Hi. unfold setitem1. rewrite (run_load1 _ _ _ _ Hp).
  rewrite decide_True by assumption. unfold write. rewrite Hp. reflexivity.
Qed.

(** The inner loop over the abscissas writes them one after the other
    into [p[i]]. *)
Lemma plot_samples_run (i : nat) (xs : list xreal) :
  (i < fit_Nmodels f)%nat ->
  forall pv h,
    plot_ready f delta p h -> h !! p = Some (Arr1 pv) ->
    exists ys,
      collect xs (fun x => let* _ := setitem1 p i x in q_eval f delta p) h
      = (<[p := Arr1 (foldl (fun v x => <[i := x]> v) pv xs)]> h, Return ys).
Proof.
  intros Hi. induction xs as [| x xs IH]; intros pv h R Hp.
  - exists []. cbn [collect foldl]. unfold ret.
    rewrite list_insert_id by assumption. reflexivity.
  - pose proof (plot_ready_p h pv R Hp) as Lpv.
    assert (R1 : plot_ready f delta p (<[p := Arr1 (<[i := x]> pv)]> h))
      by (apply plot_ready_write; [assumption | rewrite length_insert; assumption]).
    assert (Hp1 : <[p := Arr1 (<[i := x]> pv)]> h !! p
                  = Some (Arr1 (<[i := x]> pv)))
      by (apply list_lookup_insert_eq; eapply lookup_lt_Some; eauto).
    destruct (reads_q_eval f p delta _ R1) as (v & Ev & _).
    destruct (IH _ _ R1 Hp1) as (ys & Eys).
    exists (v :: ys). cbn [collect foldl].
    unfold bind at 1. unfold bind at 1.
    rewrite (setitem1_run h pv i x Hp) by lia.
    rewrite Ev. unfold bind at 1. rewrite Eys.
    rewrite list_insert_insert_eq. reflexivity.
Qed.

(** The outer loop leaves in every coordinate the last abscissa. *)
Lemma plot_coordinates_run (xs : list xreal) (s : xreal) (l : list nat) :
  (forall i, i ∈ l -> (i < fit_Nmodels f)%nat) ->
  forall pv h,
    plot_ready f delta p h -> h !! p = Some (Arr1 pv) ->
    for_each l (fun i =>
      let* ys := collect (xs ++ [s]) (fun x =>
                   let* _ := setitem1 p i x in q_eval f delta p) in
      pl_plot (xs ++ [s]) ys) h
    = (<[p := Arr1 (foldl (fun v i => <[i := s]> v) pv l)]> h, Return tt).
Proof.
  induction l as [| i l IH]; intros Hl pv h R Hp.
  - cbn [for_each foldl]. unfold ret.
    rewrite list_insert_id by assumption. reflexivity.
  - pose proof (plot_ready_p h pv R Hp) as Lpv.
    destruct (plot_samples_run i (xs ++ [s]) (Hl i ltac:(left)) pv h R Hp)
      as (ys & Eys).
    rewrite foldl_app in Eys. cbn [foldl] in Eys.
    rewrite foldl_insert_absorbed in Eys.
    assert (R1 : plot_ready f delta p (<[p := Arr1 (<[i := s]> pv)]> h))
      by (apply plot_ready_write; [assumption | rewrite length_insert; assumption]).
    assert (Hp1 : <[p := Arr1 (<[i := s]> pv)]> h !! p
                  = Some (Arr1 (<[i := s]> pv)))
      by (apply list_lookup_insert_eq; eapply lookup_lt_Some; eauto).
    cbn [for_each foldl]. unfold bind at 1. unfold bind at 1.
    rewrite Eys. cbn [pl_plot ret].
    rewrite (IH (fun j Hj => Hl j ltac:(right; exact Hj)) _ _ R1 Hp1).
    rewrite list_insert_insert_eq. reflexivity.
Qed.

(** After the plotting block [p] holds the last abscissa, 2, in every
    coordinate, and nothing else has changed. *)
Lemma plot_block_run h :
  plot_ready f delta p h ->
  plot_block f delta p h
  = (<[p := Arr1 (replicate (fit_Nmodels f) (of_nat 2))]> h, Return tt).
Proof.
  intros R. destruct (loop_ready_p f p h (proj1 R)) as (pv & Hp & Lpv).
  unfold plot_block, linspace. unfold bind at 1.
  rewrite (plot_coordinates_run _ _ (seq 0 (fit_Nmodels f))
             ltac:(intros i Hi; apply elem_of_seq in Hi; lia) pv h R Hp).
  rewrite <- Lpv, foldl_fill_all. reflexivity.
Qed.

End PlotBlock.

Section SolverCall.
Import FcsMem.

Lemma add2_square_entry (a b : matrix) n :
  nrows a = n -> ncols a = n -> nrows b = n -> ncols b = n ->
  exists c, add2 a b = Return c /\ nrows c = n /\ ncols c = n
            /\ forall i j, (i < n)%nat -> (j < n)%nat ->
                           entry c i j = (entry a i j + entry b i j)%X.
Proof.
  intros Ha1 Ha2 Hb1 Hb2. unfold add2, bdim.
  rewrite !decide_True by congruence.
  eexists. split; [reflexivity |]. cbn [nrows ncols entry].
  split; [assumption |]. split; [assumption |].
  intros i j Hi Hj. unfold bidx. rewrite Ha1, Ha2, Hb1, Hb2.
  destruct (decide (n = 1%nat)) as [-> | _]; [| reflexivity].
  replace i with 0%nat by lia. replace j with 0%nat by lia. reflexivity.
Qed.

Variable f : fit.
Variable p : loc.

(** The vector whose diagonal matrix is [delta]. *)
Lemma delta_diagonal_lookup (ev : option (list xreal)) (pv ratio : list xreal) i :
  length pv = fit_Nmodels f ->
  (forall v, ev = Some v -> length v = fit_Nmodels f) ->
  ratio = match ev with
          | None => (fun x => x / of_nat 1)%X <$> pv
          | Some v => zip_with xdiv pv v
          end ->
  (i < fit_Nmodels f)%nat ->
  zip_with xdiv (log <$> ratio) pv !! i
  = Some (delta_entry (expected_at ev i) (at1 pv i)).
Proof.
  intros Lpv Lev -> Hi.
  destruct (lookup_lt_is_Some_2 pv i) as [x Hx]; [lia |].
  rewrite lookup_zip_with, list_lookup_fmap. unfold at1 at 1. rewrite Hx.
  destruct ev as [v |].
  - destruct (lookup_lt_is_Some_2 v i) as [e He];
      [rewrite (Lev v eq_refl); lia |].
    rewrite lookup_zip_with, Hx, He. cbn. unfold expected_at, at1.
    rewrite He. reflexivity.
  - rewrite list_lookup_fmap, Hx. reflexivity.
Qed.

(** A turn of the loop up to the call of the solver, with the arrays it
    leaves on the heap. *)
Lemma mem_iter_args_run (h : heap) (pv : list xreal) (Hm : matrix)
    (ev : option (list xreal)) :
  loop_ready f p h ->
  h !! p = Some (Arr1 pv) ->
  h !! fit_H f = Some (Arr2 Hm) ->
  match fit_expected f with
  | None => ev = None
  | Some e => exists v, ev = Some v /\ h !! e = Some (Arr1 v)
  end ->
  exists h' Qm,
    mem_iter_args f p h
    = (h', Return (SolverArgs (S (length h)) (fit_g0 f) (S (S (length h)))
                              (S (S (S (length h)))) p))
    /\ h' !! p = Some (Arr1 (replicate (fit_Nmodels f) (of_nat 2)))
    /\ (forall l, (l < length h)%nat -> l <> p -> h' !! l = h !! l)
    /\ h' !! S (length h) = Some (Arr2 Qm)
    /\ nrows Qm = fit_Nmodels f /\ ncols Qm = fit_Nmodels f
    /\ (forall i j, (i < fit_Nmodels f)%nat -> (j < fit_Nmodels f)%nat ->
          entry Qm i j
          = (entry Hm i j
             + fit_nu f * (if decide (i = j)
                           then delta_entry (expected_at ev i) (at1 pv i)
                           else Fin 0))%X)
    /\ h' !! S (S (length h)) = Some (Arr2 (neg2 (np_eye (fit_Nmodels f))))
    /\ h' !! S (S (S (length h))) = Some (Arr1 (np_zeros (fit_Nmodels f))).
Proof.
  intros R Hp HH Hev.
  pose proof (loop_ready_p f p h R) as (pv' & Hp' & Lpv).
  assert (pv' = pv) by congruence. subst pv'.
  pose proof (loop_ready_H f p h R) as (Hm' & HH' & LH1 & LH2).
  assert (Hm' = Hm) by congruence. subst Hm'.
  pose proof R as (_ & _ & _ & _ & Dh & Dg & De).
  pose proof (lookup_lt_Some _ _ _ Hp) as Lp.
  pose proof (lookup_lt_Some _ _ _ HH) as LHloc.
  set (ratio := match ev with
                | None => (fun x => x / of_nat 1)%X <$> pv
                | Some v => zip_with xdiv pv v
                end).
  assert (Lev : forall v, ev = Some v -> length v = fit_Nmodels f).
  { intros v ->. destruct (fit_expected f) as [e |] eqn:Ee.
    - destruct Hev as (v' & [= <-] & He).
      destruct (loop_ready_expected f p h e R Ee) as (v'' & He' & L).
      congruence.
    - discriminate. }
  assert (Lratio : length ratio = fit_Nmodels f).
  { unfold ratio. destruct ev as [v |].
    - rewrite length_zip_with, (Lev v eq_refl). lia.
    - rewrite length_fmap. assumption. }
  set (dg := zip_with xdiv (log <$> ratio) pv).
  assert (Ldg : length dg = fit_Nmodels f)
    by (unfold dg; rewrite length_zip_with, length_fmap; lia).
  set (h1 := h ++ [Arr2 (np_diag dg)]).
  assert (R1 : plot_ready f (length h) p h1).
  { split; [apply loop_ready_alloc; assumption |].
    split; [lia |].
    eexists. split; [apply lookup_snoc_new |].
    cbn [np_diag nrows ncols]. auto. }
  set (h2 := <[p := Arr1 (replicate (fit_Nmodels f) (of_nat 2))]> h1).
  assert (L1 : length h1 = S (length h))
    by (unfold h1; rewrite length_app; cbn [length]; lia).
  assert (L2 : length h2 = S (length h))
    by (unfold h2; rewrite length_insert; assumption).
  assert (HH2 : h2 !! fit_H f = Some (Arr2 Hm)).
  { unfold h2. rewrite list_lookup_insert_ne by congruence.
    unfold h1. rewrite lookup_snoc_old by assumption. assumption. }
  assert (Hd2 : h2 !! length h = Some (Arr2 (np_diag dg))).
  { unfold h2. rewrite list_lookup_insert_ne by lia. apply lookup_snoc_new. }
  destruct (add2_square_entry Hm (scal2 (fit_nu f) (np_diag dg)) (fit_Nmodels f))
    as (Qm & EQ & HQ1 & HQ2 & HQe);
    [assumption | assumption | cbn [scal2 np_diag nrows]; assumption
    | cbn [scal2 np_diag ncols]; assumption |].
  exists (((h2 ++ [Arr2 Qm]) ++ [Arr2 (neg2 (np_eye (fit_Nmodels f)))])
            ++ [Arr1 (np_zeros (fit_Nmodels f))]), Qm.
  split.
  { unfold mem_iter_args. rewrite (run_load1 _ _ _ _ Hp).
    assert (Eratio : forall B (k : list xreal -> M B),
              bind (match fit_expected f with
                    | Some e => let* ev0 := load1 e in
                                lift (broadcast1 xdiv pv ev0)
                    | None => ret ((fun x => x / of_nat 1)%X <$> pv)
                    end) k h = k ratio h).
    { intros B k. unfold ratio. destruct (fit_expected f) as [e |].
      - destruct Hev as (v & -> & He).
        rewrite run_bind_assoc, (run_load1 _ _ _ _ He).
        rewrite broadcast1_same_length
          by (rewrite (Lev v eq_refl); assumption).
        apply run_lift.
      - rewrite Hev. apply run_ret. }
    rewrite Eratio.
    rewrite broadcast1_same_length by (rewrite length_fmap; lia).
    rewrite run_lift, run_alloc. fold dg. fold h1.
    unfold bind at 1. rewrite (plot_block_run f (length h) p h1 R1).
    fold h2. rewrite (run_load2 _ _ _ _ HH2), (run_load2 _ _ _ _ Hd2).
    rewrite EQ, run_lift, !run_alloc. unfold ret.
    rewrite !length_app, L2. cbn [length].
    do 3 f_equal; lia. }
  split.
  { rewrite !lookup_app_l by (rewrite ?length_app, L2; cbn [length]; lia).
    unfold h2. apply list_lookup_insert_eq. lia. }
  split.
  { intros l Hl Hne.
    rewrite !lookup_app_l by (rewrite ?length_app, L2; cbn [length]; lia).
    unfold h2. rewrite list_lookup_insert_ne by congruence.
    apply lookup_snoc_old. assumption. }
  split.
  { rewrite !lookup_app_l by (rewrite ?length_app, L2; cbn [length]; lia).
    rewrite <- L2. apply lookup_snoc_new. }
  split; [assumption |]. split; [assumption |].
  split.
  { intros i j Hi Hj. rewrite HQe by assumption.
    cbn [scal2 np_diag entry]. f_equal. f_equal.
    destruct (decide (i = j)); [| reflexivity].
    unfold dg.
    rewrite (delta_diagonal_lookup ev pv ratio i Lpv Lev eq_refl Hi).
    reflexivity. }
  split.
  { rewrite lookup_app_l by (rewrite !length_app, L2; cbn [length]; lia).
    replace (S (S (length h))) with (length (h2 ++ [Arr2 Qm]))
      by (rewrite length_app, L2; cbn [length]; lia).
    apply lookup_snoc_new. }
  replace (S (S (S (length h))))
    with (length ((h2 ++ [Arr2 Qm]) ++ [Arr2 (neg2 (np_eye (fit_Nmodels f)))]))
    by (rewrite !length_app, L2; cbn [length]; lia).
  apply lookup_snoc_new.
Qed.

End SolverCall.

Section SolverCallProperties.
Import FcsMem.

Lemma loop_ready_expected_vector (f : fit) (p : loc) (h : heap) :
  loop_ready f p h ->
  exists ev, match fit_expected f with
             | None => ev = None
             | Some e => exists v, ev = Some v /\ h !! e = Some (Arr1 v)
             end.
Proof.
  intros R. destruct (fit_expected f) as [e |] eqn:Ee.
  - destruct (loop_ready_expected f p h e R Ee) as (v & He & _).
    exists (Some v). eauto.
  - exists None. reflexivity.
Qed.

(** X11.  In every turn of the loop the plotting block overwrites [p]
    before the solver is called: whatever [p] held at the head of the
    turn, the starting point [x0] that the solver receives is the vector
    with 2 in each of its [Nmodels] coordinates. *)
Theorem solver_starts_from_twos (f : fit) (p : loc) (h : heap) :
  loop_ready f p h ->
  exists h' a,
    mem_iter_args f p h = (h', Return a)
    /\ arg_x0 a = p
    /\ h' !! arg_x0 a = Some (Arr1 (replicate (fit_Nmodels f) (of_nat 2))).
Proof.
  intros R.
  destruct (loop_ready_p f p h R) as (pv & Hp & _).
  destruct (loop_ready_H f p h R) as (Hm & HH & _).
  destruct (loop_ready_expected_vector f p h R) as (ev & Hev).
  destruct (mem_iter_args_run f p h pv Hm ev R Hp HH Hev)
    as (h' & Qm & E & Hx & _).
  eexists h', _. split; [exact E |]. cbn [arg_x0]. auto.
Qed.

Lemma turn_heap_ready : loop_ready turn_fit 2 turn_heap.
Proof.
  unfold loop_ready, turn_fit, turn_heap. cbn [fit_H fit_g0 fit_expected fit_Nmodels].
  split; [eexists; split; [reflexivity | split; reflexivity] |].
  split; [eexists; split; reflexivity |].
  split; [discriminate |].
  split; [eexists; split; reflexivity |].
  split; [lia |]. split; [lia | discriminate].
Qed.

Lemma solver_starts_from_twos_witness :
  exists h' a,
    mem_iter_args turn_fit 2 turn_heap = (h', Return a)
    /\ arg_x0 a = 2%nat
    /\ h' !! arg_x0 a = Some (Arr1 (replicate 2 (of_nat 2))).
Proof. apply (solver_starts_from_twos turn_fit 2 turn_heap turn_heap_ready). Defined.

(** X12.  In a turn that starts with the weights [pv] in [p], the solver
    is called with [g] the array [g0] of the set-up, unchanged, with [Q] a
    new [Nmodels] by [Nmodels] array whose entries are
    [H[i,j] + nu * log(pv[i]/expected[i]) / pv[i]] on the diagonal and
    [H[i,j] + nu * 0] elsewhere ([expected[i]] being 1 when [expected] is
    not given), with [C] a new array [-np.eye(Nmodels)] and with [d] a new
    array of [Nmodels] zeros. *)
Theorem solver_call_arguments (f : fit) (p : loc) (h : heap)
    (pv : list xreal) (Hm : matrix) (ev : option (list xreal)) :
  loop_ready f p h ->
  h !! p = Some (Arr1 pv) ->
  h !! fit_H f = Some (Arr2 Hm) ->
  match fit_expected f with
  | None => ev = None
  | Some e => exists v, ev = Some v /\ h !! e = Some (Arr1 v)
  end ->
  exists h' a Qm,
    mem_iter_args f p h = (h', Return a)
    /\ arg_g a = fit_g0 f
    /\ h' !! fit_g0 f = h !! fit_g0 f
    /\ (length h <= arg_Q a)%nat
    /\ h' !! arg_Q a = Some (Arr2 Qm)
    /\ nrows Qm = fit_Nmodels f /\ ncols Qm = fit_Nmodels f
    /\ (forall i j, (i < fit_Nmodels f)%nat -> (j < fit_Nmodels f)%nat ->
          entry Qm i j
          = (entry Hm i j
             + fit_nu f * (if decide (i = j)
                           then delta_entry (expected_at ev i) (at1 pv i)
                           else Fin 0))%X)
    /\ h' !! arg_C a = Some (Arr2 (neg2 (np_eye (fit_Nmodels f))))
    /\ h' !! arg_d a = Some (Arr1 (np_zeros (fit_Nmodels f))).
Proof.
  intros R Hp HH Hev.
  destruct (mem_iter_args_run f p h pv Hm ev R Hp HH Hev)
    as (h' & Qm & E & _ & Hold & HQ & HQ1 & HQ2 & HQe & HC & Hd).
  destruct (loop_ready_g0 f p h R) as (gv & Hg & _).
  pose proof R as (_ & _ & _ & _ & _ & Dg & _).
  eexists h', _, Qm. split; [exact E |].
  cbn [arg_g arg_Q arg_C arg_d].
  split; [reflexivity |].
  split; [apply Hold; [eapply lookup_lt_Some; eauto | congruence] |].
  split; [lia |].
  repeat (split; [assumption |]). assumption.
Qed.

Lemma solver_call_arguments_witness :
  exists h' a Qm,
    mem_iter_args turn_fit 2 turn_heap = (h', Return a)
    /\ arg_g a = 1%nat
    /\ h' !! 1%nat = turn_heap !! 1%nat
    /\ (3 <= arg_Q a)%nat
    /\ h' !! arg_Q a = Some (Arr2 Qm)
    /\ nrows Qm = 2%nat /\ ncols Qm = 2%nat
    /\ (forall i j, (i < 2)%nat -> (j < 2)%nat ->
          entry Qm i j
          = (entry turn_H i j
             + Fin 5e-6 * (if decide (i = j)
                           then delta_entry (expected_at None i)
                                            (at1 [Fin 3; Fin 4] i)
                           else Fin 0))%X)
    /\ h' !! arg_C a = Some (Arr2 (neg2 (np_eye 2)))
    /\ h' !! arg_d a = Some (Arr1 (np_zeros 2)).
Proof.
  apply (solver_call_arguments turn_fit 2 turn_heap [Fin 3; Fin 4] turn_H None
           turn_heap_ready); reflexivity.
Defined.

End SolverCallProperties.
